(** * vCard record construction: escaping, folding, building, size policy

    A shallow embedding of [tools/generate_qr_code.py] and the properties of
    its text-construction core.

    Python [str] values are sequences of Unicode code points; they are
    modelled as lists of code points ([N]).  Python [int] values are [Z].
    Functions that can raise return a [result]. *)

From Stdlib Require Import String Ascii.
From Stdlib Require Import List NArith ZArith Bool Lia.
Import ListNotations.

(* ------------------------------------------------------------------ *)
(** ** Strings *)

Module Str.

(** A code point.  Python characters range over 0 .. 0x10FFFF. *)
Definition char : Type := N.

Definition str : Type := list char.

(** A string literal of the source, as a [str]. *)
Definition lit (s : string) : str :=
  List.map N_of_ascii (list_ascii_of_string s).

Definition BACKSLASH : char := 92%N.
Definition SEMICOLON : char := 59%N.
Definition COMMA : char := 44%N.
Definition CR : char := 13%N.
Definition LF : char := 10%N.
Definition SPACE : char := 32%N.
Definition LOWER_N : char := 110%N.

(** [s.startswith(p)] *)
Fixpoint startswith (p s : str) : bool :=
  match p with
  | [] => true
  | a :: p' =>
      match s with
      | [] => false
      | b :: s' => N.eqb a b && startswith p' s'
      end
  end.

(** [sub in s] *)
Fixpoint contains (sub s : str) : bool :=
  startswith sub s ||
  match s with
  | [] => false
  | _ :: t => contains sub t
  end.

(** [sep.join(parts)] *)
Fixpoint join (sep : str) (parts : list str) : str :=
  match parts with
  | [] => []
  | [p] => p
  | p :: rest => p ++ sep ++ join sep rest
  end.

(** The scan behind [s.replace(old, new)] for a non-empty [old]: left to
    right, every occurrence found is replaced and the scan resumes after it.
    [skip] counts the characters of the occurrence still to be passed. *)
Fixpoint replace_go (old new : str) (skip : nat) (s : str) : str :=
  match s with
  | [] => []
  | c :: t =>
      match skip with
      | S k => replace_go old new k t
      | O =>
          if startswith old s
          then new ++ replace_go old new (length old - 1) t
          else c :: replace_go old new 0 t
      end
  end.

(** [s.replace(old, new)].  With an empty [old] Python puts [new] before
    every character and at the end. *)
Definition replace (old new s : str) : str :=
  match old with
  | [] => new ++ flat_map (fun c => c :: new) s
  | _ => replace_go old new 0 s
  end.

(** The scan behind [s.split(sep)] for a non-empty [sep]; the result is the
    list of the pieces between the occurrences, never empty. *)
Fixpoint split_go (sep : str) (skip : nat) (s : str) : list str :=
  match s with
  | [] => [[]]
  | c :: t =>
      match skip with
      | S k => split_go sep k t
      | O =>
          if startswith sep s
          then [] :: split_go sep (length sep - 1) t
          else match split_go sep 0 t with
               | piece :: pieces => (c :: piece) :: pieces
               | [] => [[c]]
               end
      end
  end.

(** [str.isspace] on one character: the white-space code points of
    CPython's [_PyUnicode_IsWhitespace]. *)
Definition isspace (c : char) : bool :=
  ((9 <=? c) && (c <=? 13) || (28 <=? c) && (c <=? 32)
   || (c =? 133) || (c =? 160) || (c =? 5760)
   || (8192 <=? c) && (c <=? 8202)
   || (c =? 8232) || (c =? 8233) || (c =? 8239) || (c =? 8287)
   || (c =? 12288))%N.

Fixpoint lstrip (s : str) : str :=
  match s with
  | [] => []
  | c :: t => if isspace c then lstrip t else s
  end.

Definition rstrip (s : str) : str := rev (lstrip (rev s)).

(** [s.strip()] *)
Definition strip (s : str) : str := rstrip (lstrip s).

(** [s.split()] with no separator: the maximal runs of non-space
    characters. *)
Fixpoint split_ws (s : str) : list str :=
  match s with
  | [] => []
  | c :: t =>
      if isspace c then split_ws t
      else match t with
           | [] => [[c]]
           | d :: _ =>
               if isspace d then [c] :: split_ws t
               else match split_ws t with
                    | w :: ws => (c :: w) :: ws
                    | [] => [[c]]
                    end
           end
  end.

(** [len(s)] *)
Definition len {A : Type} (s : list A) : Z := Z.of_nat (length s).

(** [s[i:j]] with Python's treatment of negative and out-of-range bounds. *)
Definition slice (s : str) (i j : Z) : str :=
  let n := len s in
  let norm k := if (k <? 0)%Z then Z.max 0 (k + n) else Z.min k n in
  let a := norm i in
  let b := norm j in
  firstn (Z.to_nat (b - a)) (skipn (Z.to_nat a) s).

End Str.

Import Str.

(* ------------------------------------------------------------------ *)
(** ** Exceptions *)

(** The texts of the [ValueError]s the program raises or meets. *)
Inductive message : Type :=
| Msg_fp_invalid_characters   (* Fingerprint contains invalid characters *)
| Msg_fp_length               (* Fingerprint must be 8, 16, or 40 hex characters ... *)
| Msg_avatar_not_http         (* Avatar must be an http(s) URL when provided. ... *)
| Msg_pgp_key_not_http        (* PGP key URI must be an http(s) URL when provided. *)
| Msg_too_large (length : Z)  (* vCard content is too large for a practical QR (~{length} bytes). ... *)
| Msg_range_step_zero         (* range() arg 3 must not be zero *)
| Msg_empty_separator.        (* empty separator *)

(** [UnicodeEncodeError] is a subclass of [ValueError] in Python. *)
Inductive exn : Type :=
| ValueError (m : message)
| UnicodeEncodeError (position : nat).

Inductive result (A : Type) : Type :=
| Ok (a : A)
| Err (e : exn).

Arguments Ok {A} a.
Arguments Err {A} e.

Definition bind {A B : Type} (r : result A) (k : A -> result B) : result B :=
  match r with
  | Ok a => k a
  | Err e => Err e
  end.

Notation "x <- r ;; k" := (bind r (fun x => k))
  (at level 61, r at next level, right associativity).

(** A [for] loop appending [f x] for each [x], stopping at the first raise. *)
Fixpoint for_each {A B : Type} (f : A -> result B) (xs : list A) : result (list B) :=
  match xs with
  | [] => Ok []
  | x :: rest =>
      y <- f x ;;
      ys <- for_each f rest ;;
      Ok (y :: ys)
  end.

(** [s.split(sep)] *)
Definition split (sep s : str) : result (list str) :=
  match sep with
  | [] => Err (ValueError Msg_empty_separator)
  | _ => Ok (split_go sep 0 s)
  end.

(** [range(start, stop, step)], as the list of its elements. *)
Definition py_range (start stop step : Z) : result (list Z) :=
  if (step =? 0)%Z then Err (ValueError Msg_range_step_zero)
  else
    let count :=
      if (0 <? step)%Z then Z.to_nat ((stop - start + step - 1) / step)
      else Z.to_nat ((start - stop - step - 1) / (- step)) in
    Ok (List.map (fun k => (start + Z.of_nat k * step)%Z) (seq 0 count)).

(* ------------------------------------------------------------------ *)
(** ** Field Escaper *)

(** [not s] for an [Optional[str]] *)
Definition falsy (s : option str) : bool :=
  match s with
  | None => true
  | Some [] => true
  | Some (_ :: _) => false
  end.

Definition truthy (s : option str) : bool := negb (falsy s).

Definition escape_vcard_value (s : option str) : str :=
  match s with
  | None => []
  | Some [] => []
  | Some s =>
      let s := replace (lit "\") (lit "\\") s in
      let s := replace (lit ";") (lit "\;") s in
      let s := replace (lit ",") (lit "\,") s in
      let s := replace [LF] (lit "\n") (replace [CR; LF] (lit "\n") s) in
      s
  end.

(* ------------------------------------------------------------------ *)
(** ** Line Folder *)

Definition fold_vcard_line (line : str) (width : Z) (line_ending : str)
  : result str :=
  if (len line <=? width)%Z then Ok line
  else
    idx <- py_range 0 (len line) width ;;
    let parts := List.map (fun i => slice line i (i + width)) idx in
    let sep := line_ending ++ lit " " in
    Ok (join sep parts).

(* ------------------------------------------------------------------ *)
(** ** Fingerprints and URLs *)

Definition is_http_url (s : str) : bool :=
  match s with
  | [] => false
  | _ => startswith (lit "http://") s || startswith (lit "https://") s
  end.

(** The character class [0-9A-Fa-f]. *)
Definition is_hex (c : char) : bool :=
  ((48 <=? c) && (c <=? 57) || (65 <=? c) && (c <=? 70)
   || (97 <=? c) && (c <=? 102))%N.

(** The character class [0-9A-F]. *)
Definition is_upper_hex (c : char) : bool :=
  ((48 <=? c) && (c <=? 57) || (65 <=? c) && (c <=? 70))%N.

(** [str.upper] on one character, restricted to ASCII: the only strings
    upper-cased by the program are made of characters of [0-9A-Fa-f]. *)
Definition upper_char (c : char) : char :=
  if ((97 <=? c) && (c <=? 122))%N then (c - 32)%N else c.

Definition upper (s : str) : str := List.map upper_char s.

(** [re.sub(r"[^0-9A-Fa-f]", "", fp)] *)
Definition re_sub_non_hex (fp : str) : str := filter is_hex fp.

(** [re.fullmatch(r"[0-9A-F]+", s)] as a truth value *)
Definition fullmatch_upper_hex (s : str) : bool :=
  match s with
  | [] => false
  | _ => forallb is_upper_hex s
  end.

Definition normalize_fingerprint (fp : str) : result str :=
  match fp with
  | [] => Ok []
  | _ =>
      let s := upper (re_sub_non_hex fp) in
      if negb (fullmatch_upper_hex s) then Err (ValueError Msg_fp_invalid_characters)
      else if negb (existsb (Z.eqb (len s)) [8; 16; 40]%Z)
           then Err (ValueError Msg_fp_length)
           else Ok s
  end.

(* ------------------------------------------------------------------ *)
(** ** Record Builder *)

(** The value of an [Optional[str]] known to be truthy. *)
Definition val (s : option str) : str :=
  match s with
  | Some s => s
  | None => []
  end.

Definition nonempty (s : str) : bool :=
  match s with
  | [] => false
  | _ => true
  end.

(** [if cond: lines.append(line)] *)
Definition append_if (cond : bool) (lines : list str) (line : str) : list str :=
  if cond then lines ++ [line] else lines.

Definition build_vcard
  (full_name given surname preferred_name : str)
  (email phone github city country note avatar_uri pgp_key_uri
     pgp_fingerprint : option str)
  (line_ending : str) : result str :=
  let fn := if nonempty full_name then full_name else [] in
  let family := escape_vcard_value (Some surname) in
  let given_e := escape_vcard_value (Some given) in
  let n_field := lit "N:" ++ family ++ lit ";" ++ given_e ++ lit ";;;" in
  let email_e := escape_vcard_value email in
  let tel := escape_vcard_value phone in
  let github_url :=
    if truthy github then
      if is_http_url (val github) then val github
      else lit "https://github.com/" ++ val github
    else [] in
  let x_social :=
    if truthy github
    then lit "X-SOCIALPROFILE;TYPE=github:" ++ escape_vcard_value (Some github_url)
    else [] in
  let apple_item_lines :=
    if truthy github
    then [ lit "item1.URL;type=pref:" ++ escape_vcard_value (Some github_url);
           lit "item1.X-ABLabel:GitHub" ]
    else [] in
  let locality := escape_vcard_value city in
  let country_e := escape_vcard_value country in
  let note_e := escape_vcard_value note in
  let adr := lit "ADR:;;;" ++ locality ++ lit ";;" ++ country_e in
  let lines := [ lit "BEGIN:VCARD"; lit "VERSION:3.0" ] in
  let lines := lines ++ [ lit "FN:" ++ escape_vcard_value (Some fn) ] in
  let lines := lines ++ [ n_field ] in
  let lines := append_if (nonempty tel) lines (lit "TEL;TYPE=CELL:" ++ tel) in
  let lines :=
    append_if (nonempty email_e) lines (lit "EMAIL;TYPE=INTERNET:" ++ email_e) in
  let lines :=
    append_if (nonempty github_url) lines
      (lit "URL:" ++ escape_vcard_value (Some github_url)) in
  let lines := append_if (nonempty x_social) lines x_social in
  let lines := lines ++ apple_item_lines in
  let lines := append_if (nonempty locality || nonempty country_e) lines adr in
  let lines := append_if (nonempty note_e) lines (lit "NOTE:" ++ note_e) in
  lines <-
    (if truthy avatar_uri then
       if negb (is_http_url (val avatar_uri))
       then Err (ValueError Msg_avatar_not_http)
       else Ok (lines ++ [ lit "PHOTO;VALUE=URI:" ++ escape_vcard_value avatar_uri ])
     else Ok lines) ;;
  lines <-
    (if truthy pgp_key_uri then
       if negb (is_http_url (val pgp_key_uri))
       then Err (ValueError Msg_pgp_key_not_http)
       else Ok (lines ++ [ lit "KEY;VALUE=URI:" ++ escape_vcard_value pgp_key_uri ])
     else Ok lines) ;;
  let lines :=
    append_if (truthy pgp_fingerprint) lines
      (lit "X-PGP-FP:" ++ escape_vcard_value pgp_fingerprint) in
  let lines :=
    if nonempty preferred_name then
      let pref_e := escape_vcard_value (Some preferred_name) in
      (lines ++ [ lit "NICKNAME:" ++ pref_e ])
        ++ [ lit "X-PREFERRED-NAME:" ++ pref_e ]
    else lines in
  let lines := lines ++ [ lit "END:VCARD" ] in
  let joined := join line_ending lines in
  pieces <- split line_ending joined ;;
  folded_lines <- for_each (fun L => fold_vcard_line L 75 line_ending) pieces ;;
  Ok (join line_ending folded_lines ++ line_ending).

(* ------------------------------------------------------------------ *)
(** ** Size Validator *)

Definition WARN_QR_BYTES : Z := 2000.
Definition MAX_QR_BYTES : Z := 2950.

(** The UTF-8 encoding of one code point; the strict encoder refuses the
    surrogates U+D800 .. U+DFFF. *)
Definition utf8_of_char (c : char) : option (list N) :=
  (if c <? 128 then Some [c]
   else if c <? 2048 then
     Some [N.lor 192 (N.shiftr c 6); N.lor 128 (N.land c 63)]
   else if (55296 <=? c) && (c <=? 57343) then None
   else if c <? 65536 then
     Some [N.lor 224 (N.shiftr c 12);
           N.lor 128 (N.land (N.shiftr c 6) 63);
           N.lor 128 (N.land c 63)]
   else
     Some [N.lor 240 (N.shiftr c 18);
           N.lor 128 (N.land (N.shiftr c 12) 63);
           N.lor 128 (N.land (N.shiftr c 6) 63);
           N.lor 128 (N.land c 63)])%N.

Fixpoint encode_utf8_from (position : nat) (s : str) : result (list N) :=
  match s with
  | [] => Ok []
  | c :: t =>
      match utf8_of_char c with
      | None => Err (UnicodeEncodeError position)
      | Some bs =>
          rest <- encode_utf8_from (S position) t ;;
          Ok (bs ++ rest)
      end
  end.

(** [s.encode("utf-8")] *)
Definition encode_utf8 (s : str) : result (list N) := encode_utf8_from 0 s.

(** What the program prints on the standard error stream. *)
Inductive stderr_line : Type :=
| Warning_large_payload (length : Z)
| Error_name_required
| Error_avatar_not_http
| Error_pgp_key_uri_not_http
| Warning_short_keyid
| Note_long_keyid
| Error_invalid_fingerprint (e : exn)
| Failed_to_build (e : exn)
| Error_line (e : exn)
| Suggested_fixes.

(** The function prints and may raise: it returns what it printed on the
    standard error stream with its result. *)
Definition approx_size_warn_and_check (s : str)
  : list stderr_line * result unit :=
  match encode_utf8 s with
  | Err e => ([], Err e)
  | Ok bytes =>
      let length := len bytes in
      let printed :=
        if (WARN_QR_BYTES <? length)%Z then [Warning_large_payload length]
        else [] in
      if (MAX_QR_BYTES <? length)%Z
      then (printed, Err (ValueError (Msg_too_large length)))
      else (printed, Ok tt)
  end.

(* ------------------------------------------------------------------ *)
(** ** The caller: [main] after argument parsing and prompting *)

Module Args.

Inductive line_ending_choice : Type := crlf | lf.

(** The parsed arguments the text construction reads. *)
Record t : Type := {
  name : str;
  given : str;
  surname : str;
  preferred_name : str;
  email : str;
  phone : str;
  github : str;
  city : str;
  country : str;
  note : str;
  avatar : str;
  pgp_key_uri : str;
  pgp_fingerprint : str;
  line_ending : line_ending_choice
}.

End Args.

(** The structured given name and surname ([main], "Determine structured
    given and surname if not explicitly provided"). *)
Definition main_given_surname (args : Args.t) : str * str :=
  let given := strip (Args.given args) in
  let surname := strip (Args.surname args) in
  if negb (nonempty given || nonempty surname) then
    let name_tokens := split_ws (strip (Args.name args)) in
    if (2 <=? len name_tokens)%Z then
      let surname := last name_tokens [] in
      let given := join (lit " ") (removelast name_tokens) in
      (given, surname)
    else
      let given := strip (Args.name args) in
      let surname := [] in
      (given, surname)
  else (given, surname).

(** The formatted name ([main], "Decide FN (formatted name) if not
    explicitly supplied"). *)
Definition main_fn (args : Args.t) (given surname : str) : str :=
  let fn := strip (Args.name args) in
  if negb (nonempty fn) then
    if nonempty (Args.preferred_name args) then
      let fn := strip (Args.preferred_name args) in
      if nonempty surname then fn ++ lit " " ++ surname else fn
    else
      strip (join (lit " ") (filter nonempty [given; surname]))
  else fn.

(** How [main] ends: a call of [sys.exit], or the payload handed to
    [generate_qr_svg]. *)
Inductive outcome : Type :=
| Exit (code : Z)
| GenerateQr (vcard : str).

Definition main (args : Args.t) : list stderr_line * outcome :=
  if negb (nonempty (Args.name args) || nonempty (Args.given args)
           || nonempty (Args.surname args))
  then ([Error_name_required], Exit 2)
  else if nonempty (Args.avatar args) && negb (is_http_url (Args.avatar args))
  then ([Error_avatar_not_http], Exit 3)
  else if nonempty (Args.pgp_key_uri args)
          && negb (is_http_url (Args.pgp_key_uri args))
  then ([Error_pgp_key_uri_not_http], Exit 4)
  else
    let fp_step :=
      if nonempty (Args.pgp_fingerprint args) then
        match normalize_fingerprint (Args.pgp_fingerprint args) with
        | Ok normalized_fp =>
            if (len normalized_fp =? 8)%Z then ([Warning_short_keyid], Ok normalized_fp)
            else if (len normalized_fp =? 16)%Z then ([Note_long_keyid], Ok normalized_fp)
            else ([], Ok normalized_fp)
        | Err e => ([Error_invalid_fingerprint e], Err e)
        end
      else ([], Ok []) in
    match fp_step with
    | (printed, Err _) => (printed, Exit 5)
    | (printed, Ok normalized_fp) =>
        let line_ending :=
          match Args.line_ending args with
          | Args.crlf => [CR; LF]
          | Args.lf => [LF]
          end in
        let (given, surname) := main_given_surname args in
        let fn := main_fn args given surname in
        match
          build_vcard fn given surname (strip (Args.preferred_name args))
            (Some (Args.email args)) (Some (Args.phone args))
            (Some (Args.github args)) (Some (Args.city args))
            (Some (Args.country args)) (Some (Args.note args))
            (Some (Args.avatar args)) (Some (Args.pgp_key_uri args))
            (Some normalized_fp) line_ending
        with
        | Err e => (printed ++ [Failed_to_build e], Exit 6)
        | Ok vcard =>
            match approx_size_warn_and_check vcard with
            | (warned, Err e) =>
                (printed ++ warned ++ [Error_line e; Suggested_fixes], Exit 7)
            | (warned, Ok _) => (printed ++ warned, GenerateQr vcard)
            end
        end
    end.

(* ------------------------------------------------------------------ *)
(** ** The Field Escaper as the specification words it *)

Module EscaperSpec.

(** "Replace every [c] with [new]": one pass over the characters. *)
Definition replace_every (c : char) (new : str) (s : str) : str :=
  flat_map (fun x => if (x =? c)%N then new else [x]) s.

(** "Replace every CRLF or LF sequence with literal backslash-n". *)
Fixpoint replace_every_newline (s : str) : str :=
  match s with
  | [] => []
  | c :: t =>
      match t with
      | d :: t' =>
          if ((c =? CR) && (d =? LF))%N then lit "\n" ++ replace_every_newline t'
          else if (c =? LF)%N then lit "\n" ++ replace_every_newline t
          else c :: replace_every_newline t
      | [] => if (c =? LF)%N then lit "\n" else [c]
      end
  end.

Definition Escape (s : option str) : str :=
  match s with
  | None => []
  | Some s =>
      let s1 := replace_every BACKSLASH (lit "\\") s in
      let s2 := replace_every SEMICOLON (lit "\;") s1 in
      let s3 := replace_every COMMA (lit "\,") s2 in
      replace_every_newline s3
  end.

End EscaperSpec.

(** The first three replacements, on one character. *)
Definition escape_delim (c : char) : str :=
  (if c =? BACKSLASH then lit "\\"
   else if c =? SEMICOLON then lit "\;"
   else if c =? COMMA then lit "\," else [c])%N.

(** The escaper in one pass over the input. *)
Definition escape_char (c : char) : str :=
  (if c =? BACKSLASH then lit "\\"
   else if c =? SEMICOLON then lit "\;"
   else if c =? COMMA then lit "\,"
   else if c =? LF then lit "\n"
   else [c])%N.

Fixpoint escape_pass (s : str) : str :=
  match s with
  | [] => []
  | c :: t =>
      match t with
      | d :: t' =>
          if ((c =? CR) && (d =? LF))%N then lit "\n" ++ escape_pass t'
          else escape_char c ++ escape_pass t
      | [] => escape_char c
      end
  end.

(** Every backslash of [s] starts one of the escape sequences backslash
    backslash, backslash semicolon, backslash comma, backslash n, and no
    semicolon or comma stands outside such a sequence. *)
Fixpoint well_escaped (s : str) : bool :=
  match s with
  | [] => true
  | c :: t =>
      if (c =? BACKSLASH)%N then
        match t with
        | d :: t' =>
            ((d =? BACKSLASH) || (d =? SEMICOLON) || (d =? COMMA)
             || (d =? LOWER_N))%N && well_escaped t'
        | [] => false
        end
      else negb ((c =? SEMICOLON) || (c =? COMMA))%N && well_escaped t
  end.

(** Every CR of [s] is immediately followed by LF. *)
Fixpoint cr_only_in_crlf (s : str) : bool :=
  match s with
  | [] => true
  | c :: t =>
      (negb (c =? CR)%N || startswith [LF] t) && cr_only_in_crlf t
  end.

(* ------------------------------------------------------------------ *)
(** ** Notions used to state the properties *)

(** The two line terminators the program is run with. *)
Definition is_terminator (t : str) : Prop := t = [CR; LF] \/ t = [LF].

(** [count] successive chunks of [w] characters of [s]. *)
Fixpoint chunk_list (count w : nat) (s : str) : list str :=
  match count with
  | O => []
  | S c => firstn w s :: chunk_list c w (skipn w s)
  end.

(** The number of elements of [range(0, n, w)] for a positive [w]. *)
Definition chunk_count (n w : Z) : nat := Z.to_nat ((n + w - 1) / w).

(** The physical lines a logical line is folded into: the first chunk, and
    every further chunk behind one space. *)
Definition physical_lines (L : str) : list str :=
  if (len L <=? 75)%Z then [L]
  else
    match chunk_list (chunk_count (len L) 75) 75 L with
    | [] => []
    | first :: rest => first :: List.map (cons SPACE) rest
    end.

(** *** The fields of the record, block by block *)

Definition optional_field (present : bool) (field : str) : list str :=
  if present then [field] else [].

(** The URL a profile handle stands for. *)
Definition profile_url (handle : str) : str :=
  if is_http_url handle then handle else lit "https://github.com/" ++ handle.

Definition identity_block (full_name given surname : str) : list str :=
  [ lit "FN:" ++ escape_vcard_value (Some full_name);
    lit "N:" ++ escape_vcard_value (Some surname) ++ lit ";"
      ++ escape_vcard_value (Some given) ++ lit ";;;" ].

Definition phone_block (phone : option str) : list str :=
  optional_field (nonempty (escape_vcard_value phone))
    (lit "TEL;TYPE=CELL:" ++ escape_vcard_value phone).

Definition email_block (email : option str) : list str :=
  optional_field (nonempty (escape_vcard_value email))
    (lit "EMAIL;TYPE=INTERNET:" ++ escape_vcard_value email).

(** The URL field, the social-profile field and the labeled-link pair. *)
Definition link_block (github : option str) : list str :=
  if truthy github then
    let url := escape_vcard_value (Some (profile_url (val github))) in
    [ lit "URL:" ++ url;
      lit "X-SOCIALPROFILE;TYPE=github:" ++ url;
      lit "item1.URL;type=pref:" ++ url;
      lit "item1.X-ABLabel:GitHub" ]
  else [].

Definition address_block (city country : option str) : list str :=
  optional_field
    (nonempty (escape_vcard_value city) || nonempty (escape_vcard_value country))
    (lit "ADR:;;;" ++ escape_vcard_value city ++ lit ";;"
       ++ escape_vcard_value country).

Definition note_block (note : option str) : list str :=
  optional_field (nonempty (escape_vcard_value note))
    (lit "NOTE:" ++ escape_vcard_value note).

Definition avatar_block (avatar_uri : option str) : list str :=
  optional_field (truthy avatar_uri)
    (lit "PHOTO;VALUE=URI:" ++ escape_vcard_value avatar_uri).

Definition key_uri_block (pgp_key_uri : option str) : list str :=
  optional_field (truthy pgp_key_uri)
    (lit "KEY;VALUE=URI:" ++ escape_vcard_value pgp_key_uri).

Definition key_fingerprint_block (pgp_fingerprint : option str) : list str :=
  optional_field (truthy pgp_fingerprint)
    (lit "X-PGP-FP:" ++ escape_vcard_value pgp_fingerprint).

Definition nickname_block (preferred_name : str) : list str :=
  if nonempty preferred_name then
    [ lit "NICKNAME:" ++ escape_vcard_value (Some preferred_name);
      lit "X-PREFERRED-NAME:" ++ escape_vcard_value (Some preferred_name) ]
  else [].

(** An avatar or key URI the builder accepts: absent, or an http(s) URL. *)
Definition uri_accepted (uri : option str) : bool :=
  negb (truthy uri) || is_http_url (val uri).


(** The logical lines of the record, in emission order. *)
Definition record_lines
  (full_name given surname preferred_name : str)
  (email phone github city country note avatar_uri pgp_key_uri
     pgp_fingerprint : option str) : list str :=
  [ lit "BEGIN:VCARD"; lit "VERSION:3.0" ]
    ++ identity_block full_name given surname
    ++ phone_block phone
    ++ email_block email
    ++ link_block github
    ++ address_block city country
    ++ note_block note
    ++ avatar_block avatar_uri
    ++ key_uri_block pgp_key_uri
    ++ key_fingerprint_block pgp_fingerprint
    ++ nickname_block preferred_name
    ++ [ lit "END:VCARD" ].


(** A character the escaper leaves alone wherever it stands. *)
Definition plain_char (c : char) : bool :=
  negb ((c =? BACKSLASH) || (c =? SEMICOLON) || (c =? COMMA) || (c =? LF))%N.

(** *** Sample inputs *)

(** A profile handle of 80 characters. *)
Definition long_handle : str := repeat 97%N 80.

(** The builder run on the sample contact, with a given profile handle and
    avatar URI. *)
Definition build_sample (github avatar_uri : str) (line_ending : str)
  : result str :=
  build_vcard (lit "Alice Example") (lit "Alice") (lit "Example") []
    (Some (lit "alice@example.com")) (Some []) (Some github) (Some [])
    (Some []) (Some []) (Some avatar_uri) (Some []) (Some []) line_ending.

(** The surrogate code points U+D800 .. U+DFFF, which have no UTF-8
    encoding. *)
Definition is_surrogate (c : char) : bool := ((55296 <=? c) && (c <=? 57343))%N.

(** The two errors that stand for [InvalidFingerprintError]. *)
Definition is_invalid_fingerprint_error (e : exn) : bool :=
  match e with
  | ValueError Msg_fp_invalid_characters => true
  | ValueError Msg_fp_length => true
  | _ => false
  end.

(** The fingerprint of 40 hexadecimal digits with colon separators. *)
Definition sample_fingerprint : str :=
  lit "AB:CD:EF:01:23:45:67:89:AB:CD:EF:01:23:45:67:89:AB:CD:EF:01".

(** A string with no white space at either end. *)
Definition stripped (s : str) : Prop := lstrip s = s /\ rstrip s = s.

(** The arguments [--name "Alice Example" --email alice@example.com
    --github alice]. *)
Definition alice_args : Args.t :=
  {| Args.name := lit "Alice Example"; Args.given := []; Args.surname := [];
     Args.preferred_name := []; Args.email := lit "alice@example.com";
     Args.phone := []; Args.github := lit "alice"; Args.city := [];
     Args.country := []; Args.note := []; Args.avatar := [];
     Args.pgp_key_uri := []; Args.pgp_fingerprint := [];
     Args.line_ending := Args.crlf |}.

(** The arguments [--name "Ada Lovelace"] with everything else left out. *)
Definition sample_args : Args.t :=
  {| Args.name := lit "Ada Lovelace"; Args.given := []; Args.surname := [];
     Args.preferred_name := []; Args.email := []; Args.phone := [];
     Args.github := []; Args.city := []; Args.country := []; Args.note := [];
     Args.avatar := []; Args.pgp_key_uri := []; Args.pgp_fingerprint := [];
     Args.line_ending := Args.crlf |}.

(* ------------------------------------------------------------------ *)
(** ** Notions used by the further properties *)

(** A non-empty string whose first character is not a space. *)
Definition starts_with_non_space (L : str) : bool :=
  match L with
  | [] => false
  | c :: _ => negb (c =? SPACE)%N
  end.

(* ------------------------------------------------------------------ *)
(** ** Interactive prompting: [prompt_if_missing] *)

(** The console is left abstract: a state, the two reads [input] and
    [getpass.getpass], which return the line read or raise and change the
    state, and the test telling whether a raised exception is an instance of
    [Exception] (the ones the [except Exception] clause of [ask] catches). *)
Module Prompt.

Inductive io_result (E A : Type) : Type :=
| IoOk (a : A)
| IoErr (e : E).

Arguments IoOk {E A} a.
Arguments IoErr {E A} e.

Section Console.

Variable console : Type.
Variable io_exn : Type.
Variable is_Exception : io_exn -> bool.
Variable input : str -> console -> io_result io_exn str * console.
Variable getpass : str -> console -> io_result io_exn str * console.

(** A computation that reads the console. *)
Definition io (A : Type) : Type := console -> io_result io_exn A * console.

Definition ret {A : Type} (a : A) : io A := fun c => (IoOk a, c).

Definition io_bind {A B : Type} (m : io A) (k : A -> io B) : io B :=
  fun c =>
    match m c with
    | (IoOk a, c') => k a c'
    | (IoErr e, c') => (IoErr e, c')
    end.

(** [input(prompt_text).strip()] *)
Definition input_strip (prompt_text : str) : io str :=
  io_bind (input prompt_text) (fun line => ret (strip line)).

(** The local function [ask]. *)
Definition ask (prompt_text current : str) (hide : bool) : io str :=
  if nonempty current then ret current
  else if hide then
    fun c =>
      match getpass prompt_text c with
      | (IoOk line, c') => (IoOk (strip line), c')
      | (IoErr e, c') =>
          if is_Exception e then input_strip prompt_text c'
          else (IoErr e, c')
      end
  else input_strip prompt_text.

(** [if not current: current = input(prompt_text).strip()] *)
Definition input_if_missing (prompt_text current : str) : io str :=
  if negb (nonempty current) then input_strip prompt_text else ret current.

Definition prompt_if_missing (args : Args.t) : io Args.t :=
  io_bind (ask (lit "Given name (first name) (optional): ")
             (Args.given args) false) (fun given =>
  io_bind (ask (lit "Surname / family name (optional): ")
             (Args.surname args) false) (fun surname =>
  io_bind (ask (lit "Preferred name / nickname (optional): ")
             (Args.preferred_name args) false) (fun preferred_name =>
  io_bind (if negb (nonempty given) && negb (nonempty surname)
           then ask (lit "Full formatted name (required if no given/surname): ")
                  (Args.name args) false
           else ret (if nonempty (Args.name args) then Args.name args else []))
          (fun name =>
  io_bind (ask (lit "Email (optional): ") (Args.email args) true) (fun email =>
  io_bind (ask (lit "Phone (optional): ") (Args.phone args) true) (fun phone =>
  io_bind (ask (lit "Note/comment (optional): ") (Args.note args) true)
          (fun note =>
  io_bind (input_if_missing (lit "Avatar URL to include? (leave blank to skip) ")
             (Args.avatar args)) (fun avatar =>
  io_bind (input_if_missing
             (lit "PGP public key URL to include? (leave blank to skip) ")
             (Args.pgp_key_uri args)) (fun pgp_key_uri =>
  io_bind (input_if_missing
             (lit "PGP fingerprint (full 40-hex or long 16-hex or short 8-hex) (leave blank to skip): ")
             (Args.pgp_fingerprint args)) (fun pgp_fingerprint =>
  io_bind (input_if_missing (lit "Country (optional): ") (Args.country args))
          (fun country =>
  io_bind (input_if_missing (lit "City/locality (optional): ") (Args.city args))
          (fun city =>
  io_bind (input_if_missing (lit "GitHub username or full URL (optional): ")
             (Args.github args)) (fun github =>
  ret {| Args.name := name; Args.given := given; Args.surname := surname;
         Args.preferred_name := preferred_name; Args.email := email;
         Args.phone := phone; Args.github := github; Args.city := city;
         Args.country := country; Args.note := note; Args.avatar := avatar;
         Args.pgp_key_uri := pgp_key_uri;
         Args.pgp_fingerprint := pgp_fingerprint;
         Args.line_ending := Args.line_ending args |}))))))))))))).

End Console.

Arguments ret {console io_exn A} a.
Arguments io_bind {console io_exn A B} m k.
Arguments input_strip {console io_exn} input prompt_text.
Arguments ask {console io_exn} is_Exception input getpass
  prompt_text current hide.
Arguments input_if_missing {console io_exn} input prompt_text current.
Arguments prompt_if_missing {console io_exn} is_Exception input getpass args.

(** The thirteen text arguments. *)
Definition fields (args : Args.t) : list str :=
  [ Args.name args; Args.given args; Args.surname args;
    Args.preferred_name args; Args.email args; Args.phone args;
    Args.github args; Args.city args; Args.country args; Args.note args;
    Args.avatar args; Args.pgp_key_uri args; Args.pgp_fingerprint args ].

(** A console for examples: the lines still to be read, the same for
    [input] and [getpass]; reading past the end raises. *)
Definition script_read (prompt_text : str) (lines : list str)
  : io_result unit str * list str :=
  match lines with
  | [] => (IoErr tt, [])
  | line :: rest => (IoOk line, rest)
  end.

End Prompt.

(** What a value obtained by asking is: the current one when there is one,
    and otherwise a stripped answer. *)
Definition asked (current value : str) : Prop :=
  (current <> [] -> value = current) /\ (current = [] -> stripped value).

(* ------------------------------------------------------------------ *)
(** ** The earlier script, [tools/generate_vcard_qr.py] *)

(** Its escaper is the same function; its URL test, folder and builder
    differ. *)
Module Legacy.

Definition is_http_url (s : str) : bool :=
  startswith (lit "http://") s || startswith (lit "https://") s.

Definition fold_vcard_line (line : str) (width : Z) : result str :=
  if (len line <=? width)%Z then Ok line
  else
    idx <- py_range 0 (len line) width ;;
    let parts := List.map (fun i => slice line i (i + width)) idx in
    Ok (join ([CR; LF] ++ lit " ") parts).

Definition build_vcard
  (full_name : str)
  (email phone github city timezone note avatar_uri : option str)
  : result str :=
  let fn := escape_vcard_value (Some full_name) in
  let email_e := escape_vcard_value email in
  let tel := escape_vcard_value phone in
  let github_url :=
    if truthy github then
      if is_http_url (val github) then val github
      else lit "https://github.com/" ++ val github
    else [] in
  let x_social :=
    if truthy github
    then lit "X-SOCIALPROFILE;TYPE=github:" ++ escape_vcard_value (Some github_url)
    else [] in
  let locality := escape_vcard_value city in
  let tz := escape_vcard_value timezone in
  let note_e := escape_vcard_value note in
  let adr := lit "ADR:;;;" ++ locality ++ lit ";;;" in
  let lines :=
    [ lit "BEGIN:VCARD"; lit "VERSION:3.0"; lit "FN:" ++ fn;
      lit "N:;" ++ fn ++ lit ";;;" ] in
  let lines := append_if (nonempty tel) lines (lit "TEL;TYPE=CELL:" ++ tel) in
  let lines :=
    append_if (nonempty email_e) lines (lit "EMAIL;TYPE=INTERNET:" ++ email_e) in
  let lines :=
    append_if (nonempty github_url) lines
      (lit "URL:" ++ escape_vcard_value (Some github_url)) in
  let lines := append_if (nonempty x_social) lines x_social in
  let lines := append_if (nonempty locality) lines adr in
  let lines := append_if (nonempty tz) lines (lit "TZ:" ++ tz) in
  let lines := append_if (nonempty note_e) lines (lit "NOTE:" ++ note_e) in
  lines <-
    (if truthy avatar_uri then
       if negb (is_http_url (val avatar_uri))
       then Err (ValueError Msg_avatar_not_http)
       else Ok (lines ++ [ lit "PHOTO;VALUE=URI:" ++ escape_vcard_value avatar_uri ])
     else Ok lines) ;;
  let lines := lines ++ [ lit "END:VCARD" ] in
  let vcard := join [CR; LF] lines in
  pieces <- split [CR; LF] vcard ;;
  folded_lines <- for_each (fun L => fold_vcard_line L 75) pieces ;;
  Ok (join [CR; LF] folded_lines ++ [CR; LF]).

End Legacy.

(* ------------------------------------------------------------------ *)
(** ** Fingerprint normalization as the specification words it *)

(** "Strip all non-hex characters, uppercase": written from the alphabet of
    hexadecimal digits, without the ranges and helpers of the program. *)
Module FingerprintSpec.

Definition hex_characters : str := lit "0123456789ABCDEFabcdef".

Definition upper_hex_characters : str := lit "0123456789ABCDEF".

Definition is_hex_character (c : char) : bool :=
  existsb (N.eqb c) hex_characters.

(** The upper-case form of a hexadecimal character. *)
Definition uppercase (c : char) : char :=
  match find (fun p => (fst p =? c)%N)
          (combine (lit "abcdef") (lit "ABCDEF")) with
  | Some p => snd p
  | None => c
  end.

Definition normalized (fp : str) : str :=
  List.map uppercase (filter is_hex_character fp).

End FingerprintSpec.

(* ================================================================== *)
(** * Properties *)

(** ** Lists of characters *)

Lemma pair_induction {A : Type} (P : list A -> Prop) :
  P [] -> (forall a, P [a]) ->
  (forall a b l, P l -> P (b :: l) -> P (a :: b :: l)) ->
  forall l, P l.
Proof.
  intros H0 H1 H2 l.
  assert (H : P l /\ forall a, P (a :: l)).
  { induction l as [|b l [IH IH']].
    - split; [exact H0 | exact H1].
    - split; [apply IH' | intros a; apply H2; [exact IH | apply IH']]. }
  exact (proj1 H).
Qed.

Lemma startswith_app (p r : str) : startswith p (p ++ r) = true.
Proof.
  induction p as [|a p IH]; simpl; [reflexivity|].
  now rewrite N.eqb_refl, IH.
Qed.

Lemma startswith_inv (p s : str) :
  startswith p s = true -> exists r, s = p ++ r.
Proof.
  revert s; induction p as [|a p IH]; intros s H; simpl in *.
  - now exists s.
  - destruct s as [|b s]; [discriminate|].
    apply andb_true_iff in H as [Hab Hp].
    apply N.eqb_eq in Hab; subst b.
    destruct (IH _ Hp) as [r ->]. now exists r.
Qed.

Lemma flat_map_compose {A B C : Type} (f : A -> list B) (g : B -> list C) l :
  flat_map g (flat_map f l) = flat_map (fun x => flat_map g (f x)) l.
Proof.
  induction l as [|x l IH]; simpl; [reflexivity|].
  now rewrite flat_map_app, IH.
Qed.

(** ** [str.replace] *)

Lemma replace_go_skip old new k s :
  replace_go old new k s = replace_go old new 0 (skipn k s).
Proof.
  revert s; induction k as [|k IH]; intros s; [reflexivity|].
  destruct s as [|c t]; [reflexivity|]. simpl. apply IH.
Qed.

(** The scan, unfolded at an occurrence and away from one. *)
Lemma replace_go_hit old new s :
  old <> [] -> startswith old s = true ->
  replace_go old new 0 s = new ++ replace_go old new 0 (skipn (length old) s).
Proof.
  intros Hne H. destruct s as [|c t].
  - destruct old; [congruence | discriminate].
  - simpl replace_go. rewrite H. rewrite replace_go_skip.
    destruct old as [|a old]; [congruence|]. simpl.
    now rewrite Nat.sub_0_r.
Qed.

Lemma replace_go_miss old new c t :
  startswith old (c :: t) = false ->
  replace_go old new 0 (c :: t) = c :: replace_go old new 0 t.
Proof. intros H. simpl replace_go. now rewrite H. Qed.

Lemma replace_char c new s :
  replace [c] new s = EscaperSpec.replace_every c new s.
Proof.
  unfold replace, EscaperSpec.replace_every.
  induction s as [|x s IH]; [reflexivity|].
  cbn [replace_go startswith flat_map length Nat.sub].
  rewrite andb_true_r, (N.eqb_sym c x), IH.
  now destruct (x =? c)%N.
Qed.

Lemma replace_crlf_cons2 new a b l :
  replace_go [CR; LF] new 0 (a :: b :: l) =
  if ((a =? CR) && (b =? LF))%N then new ++ replace_go [CR; LF] new 0 l
  else a :: replace_go [CR; LF] new 0 (b :: l).
Proof.
  cbn [replace_go startswith length Nat.sub].
  rewrite andb_true_r, (N.eqb_sym CR a), (N.eqb_sym LF b).
  destruct ((a =? CR)%N && (b =? LF)%N); reflexivity.
Qed.

Lemma replace_crlf_single new a :
  replace_go [CR; LF] new 0 [a] = [a].
Proof.
  cbn [replace_go startswith]. now rewrite andb_false_r.
Qed.

Lemma replace_every_newline_cons2 a b l :
  EscaperSpec.replace_every_newline (a :: b :: l) =
  if ((a =? CR) && (b =? LF))%N
  then lit "\n" ++ EscaperSpec.replace_every_newline l
  else if (a =? LF)%N then lit "\n" ++ EscaperSpec.replace_every_newline (b :: l)
  else a :: EscaperSpec.replace_every_newline (b :: l).
Proof. reflexivity. Qed.

Lemma replace_newlines s :
  replace [LF] (lit "\n") (replace [CR; LF] (lit "\n") s)
  = EscaperSpec.replace_every_newline s.
Proof.
  rewrite replace_char. unfold replace, EscaperSpec.replace_every.
  induction s as [| a | a b l IHl IHbl] using pair_induction.
  - reflexivity.
  - rewrite replace_crlf_single. simpl. rewrite app_nil_r. reflexivity.
  - rewrite replace_crlf_cons2, replace_every_newline_cons2.
    destruct ((a =? CR)%N && (b =? LF)%N) eqn:Hab.
    + rewrite flat_map_app. apply (f_equal2 (@app char)); [reflexivity | exact IHl].
    + rewrite <- IHbl. cbn [flat_map].
      destruct (a =? LF)%N; reflexivity.
Qed.

(** ** The escaper, step by step and in one pass *)

Lemma escape_vcard_value_steps (s : option str) :
  escape_vcard_value s = EscaperSpec.Escape s.
Proof.
  destruct s as [[|c s]|]; try reflexivity.
  unfold escape_vcard_value, EscaperSpec.Escape.
  change (lit "\") with [BACKSLASH].
  change (lit ";") with [SEMICOLON].
  change (lit ",") with [COMMA].
  cbv zeta. rewrite replace_newlines, !replace_char. reflexivity.
Qed.

Lemma first_three_steps s :
  EscaperSpec.replace_every COMMA (lit "\,")
    (EscaperSpec.replace_every SEMICOLON (lit "\;")
       (EscaperSpec.replace_every BACKSLASH (lit "\\") s))
  = flat_map escape_delim s.
Proof.
  unfold EscaperSpec.replace_every, escape_delim.
  rewrite !flat_map_compose.
  apply flat_map_ext. intros c.
  destruct (N.eqb_spec c BACKSLASH) as [->|Hb]; [reflexivity|].
  cbn [flat_map]. rewrite app_nil_r.
  destruct (N.eqb_spec c SEMICOLON) as [->|Hs]; [reflexivity|].
  cbn [flat_map]. rewrite app_nil_r.
  destruct (N.eqb_spec c COMMA) as [->|Hc]; [reflexivity|].
  reflexivity.
Qed.

Lemma newline_step_lf t :
  EscaperSpec.replace_every_newline (LF :: t)
  = lit "\n" ++ EscaperSpec.replace_every_newline t.
Proof. destruct t; reflexivity. Qed.

Lemma newline_step_plain c t :
  c <> LF -> (c <> CR \/ startswith [LF] t = false) ->
  EscaperSpec.replace_every_newline (c :: t)
  = c :: EscaperSpec.replace_every_newline t.
Proof.
  intros Hlf Hcr. destruct t as [|d t].
  - simpl. now apply N.eqb_neq in Hlf as ->.
  - rewrite replace_every_newline_cons2.
    apply N.eqb_neq in Hlf as ->.
    destruct Hcr as [Hcr | Hd].
    + now apply N.eqb_neq in Hcr as ->.
    + cbn [startswith] in Hd. rewrite andb_true_r, N.eqb_sym in Hd.
      now rewrite Hd, andb_false_r.
Qed.

Lemma escape_delim_head b l :
  b <> LF -> startswith [LF] (flat_map escape_delim (b :: l)) = false.
Proof.
  intros Hb. cbn [flat_map]. unfold escape_delim.
  destruct (b =? BACKSLASH)%N; [reflexivity|].
  destruct (b =? SEMICOLON)%N; [reflexivity|].
  destruct (b =? COMMA)%N; [reflexivity|].
  cbn [startswith app]. rewrite andb_true_r. apply N.eqb_neq. congruence.
Qed.

Lemma newline_step_delim a t :
  (a <> CR \/ startswith [LF] t = false) ->
  EscaperSpec.replace_every_newline (escape_delim a ++ t)
  = escape_char a ++ EscaperSpec.replace_every_newline t.
Proof.
  intros Hcr. unfold escape_delim, escape_char.
  destruct (N.eqb_spec a BACKSLASH) as [->|Hb].
  { cbn [lit List.map list_ascii_of_string app].
    rewrite !newline_step_plain; try reflexivity;
      solve [discriminate | left; discriminate]. }
  destruct (N.eqb_spec a SEMICOLON) as [->|Hs].
  { cbn [lit List.map list_ascii_of_string app].
    rewrite !newline_step_plain; try reflexivity;
      solve [discriminate | left; discriminate]. }
  destruct (N.eqb_spec a COMMA) as [->|Hc].
  { cbn [lit List.map list_ascii_of_string app].
    rewrite !newline_step_plain; try reflexivity;
      solve [discriminate | left; discriminate]. }
  destruct (N.eqb_spec a LF) as [->|Hl].
  { apply newline_step_lf. }
  cbn [app]. now apply newline_step_plain.
Qed.

Lemma escape_pass_cons2 a b l :
  escape_pass (a :: b :: l) =
  if ((a =? CR) && (b =? LF))%N then lit "\n" ++ escape_pass l
  else escape_char a ++ escape_pass (b :: l).
Proof. reflexivity. Qed.

(** The four ordered replacements amount to one pass over the input. *)
Lemma escape_vcard_value_pass (s : str) :
  escape_vcard_value (Some s) = escape_pass s.
Proof.
  rewrite escape_vcard_value_steps. unfold EscaperSpec.Escape. cbv zeta.
  rewrite first_three_steps.
  induction s as [| a | a b l IHl IHbl] using pair_induction.
  - reflexivity.
  - cbn [flat_map escape_pass]. rewrite app_nil_r.
    rewrite <- (app_nil_r (escape_delim a)), newline_step_delim by (now right).
    apply app_nil_r.
  - rewrite escape_pass_cons2.
    destruct ((a =? CR)%N && (b =? LF)%N) eqn:Hab.
    + apply andb_true_iff in Hab as [Ha Hb].
      apply N.eqb_eq in Ha, Hb; subst a b.
      rewrite <- IHl. reflexivity.
    + rewrite <- IHbl.
      change (flat_map escape_delim (a :: b :: l))
        with (escape_delim a ++ flat_map escape_delim (b :: l)).
      apply newline_step_delim.
      apply andb_false_iff in Hab as [Ha | Hb].
      * left. now apply N.eqb_neq.
      * right. apply escape_delim_head. now apply N.eqb_neq.
Qed.

(** ** What the escaped string contains *)

Lemma well_escaped_newline t :
  well_escaped (lit "\n" ++ t) = well_escaped t.
Proof. reflexivity. Qed.

Lemma well_escaped_escape_char c t :
  well_escaped (escape_char c ++ t) = well_escaped t.
Proof.
  unfold escape_char.
  destruct (N.eqb_spec c BACKSLASH) as [->|Hb]; [reflexivity|].
  destruct (N.eqb_spec c SEMICOLON) as [->|Hs]; [reflexivity|].
  destruct (N.eqb_spec c COMMA) as [->|Hc]; [reflexivity|].
  destruct (N.eqb_spec c LF) as [->|Hl]; [reflexivity|].
  cbn [app well_escaped].
  apply N.eqb_neq in Hb, Hs, Hc. now rewrite Hb, Hs, Hc.
Qed.

Lemma well_escaped_pass s : well_escaped (escape_pass s) = true.
Proof.
  induction s as [| a | a b l IHl IHbl] using pair_induction.
  - reflexivity.
  - cbn [escape_pass]. rewrite <- (app_nil_r (escape_char a)).
    now rewrite well_escaped_escape_char.
  - rewrite escape_pass_cons2.
    destruct ((a =? CR)%N && (b =? LF)%N).
    + now rewrite well_escaped_newline.
    + now rewrite well_escaped_escape_char.
Qed.

Lemma escape_char_no_lf c : ~ In LF (escape_char c).
Proof.
  unfold escape_char.
  destruct (N.eqb_spec c BACKSLASH); [cbn; intuition discriminate|].
  destruct (N.eqb_spec c SEMICOLON); [cbn; intuition discriminate|].
  destruct (N.eqb_spec c COMMA); [cbn; intuition discriminate|].
  destruct (N.eqb_spec c LF); [cbn; intuition discriminate|].
  cbn. intuition congruence.
Qed.

Lemma escape_pass_no_lf s : ~ In LF (escape_pass s).
Proof.
  induction s as [| a | a b l IHl IHbl] using pair_induction.
  - intros [].
  - apply escape_char_no_lf.
  - rewrite escape_pass_cons2.
    destruct ((a =? CR)%N && (b =? LF)%N); rewrite in_app_iff.
    + intros [H | H]; [cbn in H; intuition discriminate | tauto].
    + pose proof (escape_char_no_lf a). tauto.
Qed.

Lemma escape_char_cr c : In CR (escape_char c) <-> c = CR.
Proof.
  unfold escape_char.
  destruct (N.eqb_spec c BACKSLASH) as [->|?];
    [cbn; split; [intuition discriminate | discriminate]|].
  destruct (N.eqb_spec c SEMICOLON) as [->|?];
    [cbn; split; [intuition discriminate | discriminate]|].
  destruct (N.eqb_spec c COMMA) as [->|?];
    [cbn; split; [intuition discriminate | discriminate]|].
  destruct (N.eqb_spec c LF) as [->|?];
    [cbn; split; [intuition discriminate | discriminate]|].
  cbn. intuition congruence.
Qed.

Lemma escape_pass_cr s :
  In CR (escape_pass s) <-> cr_only_in_crlf s = false.
Proof.
  induction s as [| a | a b l IHl IHbl] using pair_induction.
  - cbn. intuition discriminate.
  - cbn [escape_pass cr_only_in_crlf startswith].
    rewrite escape_char_cr, andb_true_r, orb_false_r.
    destruct (N.eqb_spec a CR); cbn; intuition congruence.
  - rewrite escape_pass_cons2.
    change (cr_only_in_crlf (a :: b :: l))
      with ((negb (a =? CR)%N || startswith [LF] (b :: l))
            && cr_only_in_crlf (b :: l)).
    cbn [startswith]. rewrite andb_true_r, (N.eqb_sym LF b).
    destruct (N.eqb_spec a CR) as [->|Ha]; cbn [negb orb andb].
    + destruct (N.eqb_spec b LF) as [->|Hb]; cbn [andb].
      * rewrite in_app_iff, IHl.
        change (cr_only_in_crlf (LF :: l)) with (cr_only_in_crlf l).
        split; [intros [H|H]; [cbn in H; intuition discriminate | exact H]
               | intros H; now right].
      * split; [reflexivity | intros _].
        apply in_or_app. left. now apply escape_char_cr.
    + rewrite in_app_iff, escape_char_cr, IHbl. intuition congruence.
Qed.

(** ** Occurrences of a substring *)

Lemma startswith_contains sub s :
  startswith sub s = true -> contains sub s = true.
Proof. intros H. destruct s; simpl; now rewrite H. Qed.

Lemma contains_iff sub s :
  contains sub s = true <-> exists a b, s = a ++ sub ++ b.
Proof.
  split.
  - induction s as [|c s IH]; simpl; intros H.
    + rewrite orb_false_r in H. apply startswith_inv in H as [r Hr].
      now exists [], r.
    + apply orb_true_iff in H as [H | H].
      * apply startswith_inv in H as [r Hr]. now exists [], r.
      * destruct (IH H) as (a & b & ->). now exists (c :: a), b.
  - intros (a & b & ->). induction a as [|c a IH]; simpl.
    + apply startswith_contains, startswith_app.
    + rewrite IH. apply orb_true_r.
Qed.

Lemma contains_app_false sub a b :
  contains sub (a ++ b) = false ->
  contains sub a = false /\ contains sub b = false.
Proof.
  intros H. split.
  - destruct (contains sub a) eqn:E; [|reflexivity].
    apply contains_iff in E as (x & y & ->).
    rewrite <- H. symmetry. apply contains_iff.
    exists x, (y ++ b). now rewrite <- !app_assoc.
  - destruct (contains sub b) eqn:E; [|reflexivity].
    apply contains_iff in E as (x & y & ->).
    rewrite <- H. symmetry. apply contains_iff.
    exists (a ++ x), y. now rewrite <- !app_assoc.
Qed.

Lemma contains_firstn sub n s :
  contains sub s = false -> contains sub (firstn n s) = false.
Proof.
  intros H. rewrite <- (firstn_skipn n s) in H.
  now apply contains_app_false in H.
Qed.

Lemma contains_skipn sub n s :
  contains sub s = false -> contains sub (skipn n s) = false.
Proof.
  intros H. rewrite <- (firstn_skipn n s) in H.
  now apply contains_app_false in H.
Qed.

Lemma contains_cons_false sub c s :
  contains sub (c :: s) = false ->
  startswith sub (c :: s) = false /\ contains sub s = false.
Proof. simpl. intros H. now apply orb_false_iff in H. Qed.

Lemma startswith_app_l p q s :
  startswith (p ++ q) s = true -> startswith p s = true.
Proof.
  revert s; induction p as [|a p IH]; intros s H; [reflexivity|].
  destruct s as [|b s]; [discriminate|]. simpl in *.
  apply andb_true_iff in H as [-> H]. now rewrite (IH _ H).
Qed.

(** No occurrence of a terminator starts inside a piece that contains none,
    whatever follows the piece: a terminator or nothing. *)
Lemma no_false_start t c y rest :
  is_terminator t -> contains t (c :: y) = false ->
  startswith t ((c :: y) ++ t ++ rest) = false.
Proof.
  intros [-> | ->] H; apply contains_cons_false in H as [H _].
  - destruct y as [|d y].
    + cbn [startswith app] in *. rewrite andb_true_r.
      now rewrite andb_false_r.
    + cbn [startswith app] in *. exact H.
  - cbn [startswith app] in *. exact H.
Qed.

Lemma is_terminator_nonempty t : is_terminator t -> t <> [].
Proof. intros [-> | ->]; discriminate. Qed.

Lemma contains_nil t : t <> [] -> contains t [] = false.
Proof. destruct t; [congruence | reflexivity]. Qed.

(** ** [str.split] and [str.join] *)

Lemma split_go_skip sep k s :
  split_go sep k s = split_go sep 0 (skipn k s) \/ (length s < k)%nat.
Proof.
  revert s; induction k as [|k IH]; intros s; [now left|].
  destruct s as [|c t]; [right; simpl; lia|].
  simpl. destruct (IH t); [now left | right; lia].
Qed.

Lemma split_go_cons sep c t :
  split_go sep 0 (c :: t) =
  if startswith sep (c :: t)
  then [] :: split_go sep (length sep - 1) t
  else match split_go sep 0 t with
       | piece :: pieces => (c :: piece) :: pieces
       | [] => [[c]]
       end.
Proof. reflexivity. Qed.

Lemma split_go_hit sep rest :
  sep <> [] ->
  split_go sep 0 (sep ++ rest) = [] :: split_go sep 0 rest.
Proof.
  intros Hne. destruct sep as [|a sep]; [congruence|].
  change ((a :: sep) ++ rest) with (a :: (sep ++ rest)).
  rewrite split_go_cons.
  change (a :: (sep ++ rest)) with ((a :: sep) ++ rest).
  rewrite (startswith_app (a :: sep) rest).
  cbn [length Nat.sub]. rewrite Nat.sub_0_r.
  destruct (split_go_skip (a :: sep) (length sep) (sep ++ rest)) as [-> | H].
  - now rewrite skipn_app, skipn_all, Nat.sub_diag.
  - rewrite length_app in H. lia.
Qed.

Lemma split_go_piece t y rest :
  is_terminator t -> contains t y = false ->
  split_go t 0 (y ++ t ++ rest) = y :: split_go t 0 rest.
Proof.
  intros Ht. induction y as [|c y IH]; intros Hy.
  - change ([] ++ t ++ rest) with (t ++ rest).
    apply split_go_hit. now apply is_terminator_nonempty.
  - pose proof (@no_false_start t c y rest Ht Hy) as Hs.
    apply contains_cons_false in Hy as [_ Hy].
    change ((c :: y) ++ t ++ rest) with (c :: (y ++ t ++ rest)) in *.
    rewrite split_go_cons, Hs, (IH Hy). reflexivity.
Qed.

Lemma split_go_last t y :
  is_terminator t -> contains t y = false -> split_go t 0 y = [y].
Proof.
  intros Ht. induction y as [|c y IH]; intros Hy; [reflexivity|].
  apply contains_cons_false in Hy as [Hs Hy].
  rewrite split_go_cons, Hs, (IH Hy). reflexivity.
Qed.

Lemma split_go_join t ys :
  is_terminator t -> ys <> [] ->
  Forall (fun y => contains t y = false) ys ->
  split_go t 0 (join t ys) = ys.
Proof.
  intros Ht Hne Hall. induction Hall as [|y ys Hy Hall IH]; [congruence|].
  destruct ys as [|z ys].
  - now apply split_go_last.
  - change (join t (y :: z :: ys)) with (y ++ t ++ join t (z :: ys)).
    rewrite split_go_piece by assumption.
    rewrite IH by discriminate. reflexivity.
Qed.

Lemma split_join t ys :
  is_terminator t -> ys <> [] ->
  Forall (fun y => contains t y = false) ys ->
  split t (join t ys) = Ok ys.
Proof.
  intros Ht Hne Hall. unfold split.
  destruct t as [|a t]; [now apply is_terminator_nonempty in Ht|].
  now rewrite split_go_join.
Qed.

Lemma join_snoc sep ys y :
  ys <> [] -> join sep (ys ++ [y]) = join sep ys ++ sep ++ y.
Proof.
  induction ys as [|x ys IH]; [congruence|]. intros _.
  destruct ys as [|z ys]; [reflexivity|].
  change (join sep ((x :: z :: ys) ++ [y]))
    with (x ++ sep ++ join sep ((z :: ys) ++ [y])).
  rewrite IH by discriminate.
  change (join sep (x :: z :: ys)) with (x ++ sep ++ join sep (z :: ys)).
  now rewrite <- !app_assoc.
Qed.

(** ** Removing the continuation separators *)

Lemma replace_nonempty old new s :
  old <> [] -> replace old new s = replace_go old new 0 s.
Proof. destruct old; [congruence | reflexivity]. Qed.

Lemma no_false_start_sep t c y rest :
  is_terminator t -> contains t (c :: y) = false ->
  startswith (t ++ [SPACE]) ((c :: y) ++ (t ++ [SPACE]) ++ rest) = false.
Proof.
  intros Ht Hy.
  destruct (startswith (t ++ [SPACE]) ((c :: y) ++ (t ++ [SPACE]) ++ rest))
    eqn:E; [|reflexivity].
  apply startswith_app_l in E.
  rewrite <- app_assoc in E.
  now rewrite (@no_false_start t c y ([SPACE] ++ rest) Ht Hy) in E.
Qed.

Lemma replace_go_piece t y rest :
  is_terminator t -> contains t y = false ->
  replace_go (t ++ [SPACE]) [] 0 (y ++ (t ++ [SPACE]) ++ rest)
  = y ++ replace_go (t ++ [SPACE]) [] 0 rest.
Proof.
  intros Ht. induction y as [|c y IH]; intros Hy.
  - change ([] ++ (t ++ [SPACE]) ++ rest) with ((t ++ [SPACE]) ++ rest).
    rewrite replace_go_hit.
    + now rewrite skipn_app, skipn_all, Nat.sub_diag.
    + intros E. now apply app_eq_nil in E as [_ E].
    + apply startswith_app.
  - pose proof (@no_false_start_sep t c y rest Ht Hy) as Hs.
    apply contains_cons_false in Hy as [_ Hy].
    change ((c :: y) ++ (t ++ [SPACE]) ++ rest)
      with (c :: (y ++ (t ++ [SPACE]) ++ rest)) in *.
    rewrite replace_go_miss by exact Hs.
    now rewrite (IH Hy).
Qed.

Lemma replace_go_last t y :
  contains t y = false -> replace_go (t ++ [SPACE]) [] 0 y = y.
Proof.
  induction y as [|c y IH]; intros Hy; [reflexivity|].
  apply contains_cons_false in Hy as [Hs Hy].
  rewrite replace_go_miss.
  - now rewrite (IH Hy).
  - destruct (startswith (t ++ [SPACE]) (c :: y)) eqn:E; [|reflexivity].
    apply startswith_app_l in E. congruence.
Qed.

Lemma replace_join t ys :
  is_terminator t ->
  Forall (fun y => contains t y = false) ys ->
  replace (t ++ [SPACE]) [] (join (t ++ [SPACE]) ys) = concat ys.
Proof.
  intros Ht Hall. rewrite replace_nonempty
    by (intros E; now apply app_eq_nil in E as [_ E]).
  induction Hall as [|y ys Hy Hall IH]; [reflexivity|].
  destruct ys as [|z ys].
  - cbn [join concat]. rewrite app_nil_r. now apply replace_go_last.
  - change (join (t ++ [SPACE]) (y :: z :: ys))
      with (y ++ (t ++ [SPACE]) ++ join (t ++ [SPACE]) (z :: ys)).
    rewrite replace_go_piece by assumption.
    now rewrite IH.
Qed.

(** ** Chunks *)

Lemma slice_chunk s i w :
  (0 <= i)%Z -> (0 <= w)%Z ->
  slice s i (i + w) = firstn (Z.to_nat w) (skipn (Z.to_nat i) s).
Proof.
  intros Hi Hw. unfold slice, len.
  destruct (Z.ltb_spec i 0); [lia|].
  destruct (Z.ltb_spec (i + w) 0); [lia|].
  destruct (Z.le_gt_cases i (Z.of_nat (length s))) as [Hin | Hin].
  - rewrite (Z.min_l i) by lia.
    destruct (Z.le_gt_cases (i + w) (Z.of_nat (length s))) as [Hw' | Hw'].
    + rewrite Z.min_l by lia. f_equal. lia.
    + rewrite Z.min_r by lia.
      rewrite !firstn_all2; [reflexivity | |]; rewrite length_skipn; lia.
  - rewrite !Z.min_r by lia. rewrite Z.sub_diag.
    rewrite (skipn_all2 (n := Z.to_nat i)) by lia. now rewrite firstn_nil.
Qed.

Lemma chunk_list_seq w s count j :
  List.map (fun k => firstn w (skipn (k * w) s)) (seq j count)
  = chunk_list count w (skipn (j * w) s).
Proof.
  revert j; induction count as [|c IH]; intros j; [reflexivity|].
  cbn [seq List.map chunk_list]. rewrite IH, skipn_skipn. reflexivity.
Qed.

Lemma chunk_list_concat w s count :
  (length s <= count * w)%nat -> concat (chunk_list count w s) = s.
Proof.
  revert s; induction count as [|c IH]; intros s H.
  - destruct s; [reflexivity | simpl in H; lia].
  - cbn [chunk_list concat]. rewrite IH.
    + apply firstn_skipn.
    + rewrite length_skipn. lia.
Qed.

Lemma chunk_list_length w s count :
  Forall (fun p => (length p <= w)%nat) (chunk_list count w s).
Proof.
  revert s; induction count as [|c IH]; intros s; constructor.
  - apply firstn_le_length.
  - apply IH.
Qed.

Lemma chunk_list_contains t w s count :
  contains t s = false ->
  Forall (fun p => contains t p = false) (chunk_list count w s).
Proof.
  revert s; induction count as [|c IH]; intros s H; constructor.
  - now apply contains_firstn.
  - apply IH. now apply contains_skipn.
Qed.

Lemma chunk_count_covers n w :
  (1 <= w)%Z -> (0 <= n)%Z ->
  (n <= Z.of_nat (chunk_count n w) * w)%Z.
Proof.
  intros Hw Hn. unfold chunk_count.
  pose proof (Z.div_mod (n + w - 1) w ltac:(lia)) as E.
  pose proof (Z.mod_pos_bound (n + w - 1) w ltac:(lia)) as B.
  assert (0 <= (n + w - 1) / w)%Z by (apply Z.div_pos; lia).
  rewrite Z2Nat.id by assumption. nia.
Qed.

Lemma chunk_count_pos n w :
  (1 <= w)%Z -> (1 <= n)%Z -> (1 <= chunk_count n w)%nat.
Proof.
  intros Hw Hn. unfold chunk_count.
  assert (1 <= (n + w - 1) / w)%Z.
  { apply Z.div_le_lower_bound; lia. }
  lia.
Qed.

(** ** The Line Folder *)

Lemma fold_short L w t :
  (len L <= w)%Z -> fold_vcard_line L w t = Ok L.
Proof.
  intros H. unfold fold_vcard_line.
  now destruct (Z.leb_spec (len L) w); [|lia].
Qed.

Lemma fold_long L w t :
  (1 <= w)%Z -> (w < len L)%Z ->
  fold_vcard_line L w t =
  Ok (join (t ++ [SPACE])
        (chunk_list (chunk_count (len L) w) (Z.to_nat w) L)).
Proof.
  intros Hw Hlen. unfold fold_vcard_line, py_range.
  destruct (Z.leb_spec (len L) w); [lia|].
  destruct (Z.eqb_spec w 0); [lia|].
  destruct (Z.ltb_spec 0 w); [|lia].
  cbn [bind]. rewrite Z.sub_0_r. fold (chunk_count (len L) w).
  rewrite map_map.
  rewrite (map_ext _ (fun k => firstn (Z.to_nat w) (skipn (k * Z.to_nat w) L))).
  - rewrite chunk_list_seq. reflexivity.
  - intros k. rewrite slice_chunk by nia. do 2 f_equal. nia.
Qed.

Lemma join_cons_head sep a d ys :
  join sep ((a :: d) :: ys) = a :: join sep (d :: ys).
Proof. destruct ys; reflexivity. Qed.

Lemma join_sep_space t c cs :
  join (t ++ [SPACE]) (c :: cs) = join t (c :: List.map (cons SPACE) cs).
Proof.
  revert c; induction cs as [|d cs IH]; intros c; [reflexivity|].
  change (join (t ++ [SPACE]) (c :: d :: cs))
    with (c ++ (t ++ [SPACE]) ++ join (t ++ [SPACE]) (d :: cs)).
  rewrite IH.
  change (join t (c :: List.map (cons SPACE) (d :: cs)))
    with (c ++ t ++ join t ((SPACE :: d) :: List.map (cons SPACE) cs)).
  rewrite join_cons_head, <- app_assoc. reflexivity.
Qed.

Lemma contains_space_cons t p :
  is_terminator t -> contains t p = false -> contains t (SPACE :: p) = false.
Proof.
  intros [-> | ->] H; cbn [contains]; rewrite H; reflexivity.
Qed.

Lemma Forall_space_cons t ps :
  is_terminator t ->
  Forall (fun p => contains t p = false) ps ->
  Forall (fun p => contains t p = false) (List.map (cons SPACE) ps).
Proof.
  intros Ht H. induction H; constructor; auto using contains_space_cons.
Qed.

(** C2. For a logical line [L] without terminator, a width [w >= 1] and a
    terminator [t] (CRLF or LF): folding succeeds; a line of at most [w]
    characters is returned unchanged; the segments of the folded line
    (its pieces between terminators) are a first segment and further
    segments that each start with one space, and without that space every
    segment has at most [w] characters and the segments concatenate to [L];
    replacing every terminator-plus-space by the empty string recovers [L];
    and folding any of these segments again leaves it unchanged. *)
Theorem fold_vcard_line_segments (L : str) (w : Z) (t : str) :
  (1 <= w)%Z -> is_terminator t -> contains t L = false ->
  exists (out first : str) (rest : list str),
    fold_vcard_line L w t = Ok out /\
    ((len L <= w)%Z -> out = L) /\
    split t out = Ok (first :: List.map (cons SPACE) rest) /\
    Forall (fun seg => (len seg <= w)%Z) (first :: rest) /\
    concat (first :: rest) = L /\
    replace (t ++ [SPACE]) [] out = L /\
    Forall (fun seg => fold_vcard_line seg w t = Ok seg) (first :: rest).
Proof.
  intros Hw Ht HL.
  destruct (Z.le_gt_cases (len L) w) as [Hshort | Hlong].
  - exists L, L, []. rewrite fold_short by assumption.
    repeat split.
    + apply (@split_join t [L]); [assumption | discriminate | now constructor].
    + now constructor.
    + cbn. apply app_nil_r.
    + assert (E : replace (t ++ [SPACE]) [] (join (t ++ [SPACE]) [L]) = concat [L])
        by (apply replace_join; [assumption | now constructor]).
      cbn [join concat] in E. now rewrite app_nil_r in E.
    + constructor; [now apply fold_short | constructor].
  - rewrite fold_long by lia.
    pose proof (chunk_list_length (Z.to_nat w) L (chunk_count (len L) w)) as Hlen.
    pose proof (@chunk_list_contains t (Z.to_nat w) L (chunk_count (len L) w) HL)
      as Hfree.
    assert (Hcat : concat (chunk_list (chunk_count (len L) w) (Z.to_nat w) L) = L).
    { apply chunk_list_concat.
      pose proof (@chunk_count_covers (len L) w Hw ltac:(unfold len; lia)).
      unfold len in *. nia. }
    pose proof (@chunk_count_pos (len L) w Hw ltac:(lia)) as Hpos.
    destruct (chunk_count (len L) w) as [|c]; [lia|].
    cbn [chunk_list] in *.
    set (first := firstn (Z.to_nat w) L) in *.
    set (rest := chunk_list c (Z.to_nat w) (skipn (Z.to_nat w) L)) in *.
    exists (join (t ++ [SPACE]) (first :: rest)), first, rest.
    assert (Hw_len : Forall (fun seg : str => (len seg <= w)%Z) (first :: rest)).
    { eapply Forall_impl; [|exact Hlen]. intros p Hp. unfold len. cbv beta in Hp. lia. }
    repeat split.
    + intros. lia.
    + rewrite join_sep_space. apply split_join; [assumption | discriminate |].
      apply Forall_cons_iff in Hfree as [Hf1 Hf2].
      constructor; [assumption|].
      now apply Forall_space_cons.
    + exact Hw_len.
    + exact Hcat.
    + rewrite replace_join by assumption. exact Hcat.
    + eapply Forall_impl; [|exact Hw_len]. intros p Hp. now apply fold_short.
Qed.

Lemma fold_vcard_line_segments_witness :
  exists (out first : str) (rest : list str),
    fold_vcard_line (lit "abcdefg") 3 [CR; LF] = Ok out /\
    ((len (lit "abcdefg") <= 3)%Z -> out = lit "abcdefg") /\
    split [CR; LF] out = Ok (first :: List.map (cons SPACE) rest) /\
    Forall (fun seg => (len seg <= 3)%Z) (first :: rest) /\
    concat (first :: rest) = lit "abcdefg" /\
    replace ([CR; LF] ++ [SPACE]) [] out = lit "abcdefg" /\
    Forall (fun seg => fold_vcard_line seg 3 [CR; LF] = Ok seg) (first :: rest).
Proof.
  apply (@fold_vcard_line_segments (lit "abcdefg") 3 [CR; LF]).
  - lia.
  - left; reflexivity.
  - reflexivity.
Defined.

Example fold_example :
  fold_vcard_line (lit "abcdefg") 3 [CR; LF]
  = Ok (lit "abc" ++ [CR; LF] ++ lit " def" ++ [CR; LF] ++ lit " g").
Proof. reflexivity. Qed.

(** ** The Record Builder *)

Lemma append_if_eq cond lines line :
  append_if cond lines line = lines ++ optional_field cond line.
Proof. destruct cond; [reflexivity | symmetry; apply app_nil_r]. Qed.

Lemma nonempty_or_self s : (if nonempty s then s else []) = s.
Proof. now destruct s. Qed.

Lemma profile_url_nonempty g : nonempty g = true -> nonempty (profile_url g) = true.
Proof.
  unfold profile_url. intros H. destruct (is_http_url g); [assumption | reflexivity].
Qed.

Lemma truthy_val o : truthy o = true -> nonempty (val o) = true.
Proof. now destruct o as [[|]|]. Qed.

Lemma nonempty_app_l a b : nonempty a = true -> nonempty (a ++ b) = true.
Proof. now destruct a. Qed.

Lemma optional_field_true x : optional_field true x = [x].
Proof. reflexivity. Qed.

Ltac normalize_lines :=
  cbn [negb orb bind]; try reflexivity;
  rewrite ?append_if_eq, ?optional_field_true;
  rewrite ?nonempty_app_l by reflexivity;
  rewrite ?optional_field_true;
  rewrite <- ?app_assoc; cbn [app]; try reflexivity.

(** The builder: it refuses a bad avatar URI, then a bad key URI, and
    otherwise joins, splits, folds and joins the lines of the record. *)
Lemma build_vcard_unfold
  full_name given surname preferred_name
  email phone github city country note avatar_uri pgp_key_uri pgp_fingerprint
  line_ending :
  build_vcard full_name given surname preferred_name email phone github city
    country note avatar_uri pgp_key_uri pgp_fingerprint line_ending
  = if negb (uri_accepted avatar_uri) then Err (ValueError Msg_avatar_not_http)
    else if negb (uri_accepted pgp_key_uri)
    then Err (ValueError Msg_pgp_key_not_http)
    else
      pieces <- split line_ending
                  (join line_ending
                     (record_lines full_name given surname preferred_name
                        email phone github city country note avatar_uri
                        pgp_key_uri pgp_fingerprint)) ;;
      folded_lines <-
        for_each (fun L => fold_vcard_line L 75 line_ending) pieces ;;
      Ok (join line_ending folded_lines ++ line_ending).
Proof.
  unfold build_vcard, record_lines, uri_accepted.
  cbv zeta. rewrite nonempty_or_self.
  unfold identity_block, phone_block, email_block, link_block, address_block,
    note_block, avatar_block, key_uri_block, key_fingerprint_block,
    nickname_block.
  rewrite !append_if_eq.
  destruct (truthy github) eqn:Hg; cbv beta iota.
  - fold (profile_url (val github)).
    rewrite (@profile_url_nonempty (val github) (@truthy_val github Hg)).
    destruct (truthy avatar_uri), (is_http_url (val avatar_uri));
      cbn [negb orb bind]; try reflexivity;
      destruct (truthy pgp_key_uri), (is_http_url (val pgp_key_uri));
      cbn [negb orb bind]; try reflexivity;
      destruct (nonempty preferred_name); normalize_lines.
  - change (nonempty []) with false.
    destruct (truthy avatar_uri), (is_http_url (val avatar_uri));
      cbn [negb orb bind]; try reflexivity;
      destruct (truthy pgp_key_uri), (is_http_url (val pgp_key_uri));
      cbn [negb orb bind]; try reflexivity;
      destruct (nonempty preferred_name); normalize_lines.
Qed.

(** *** No line of the record contains a line feed *)

Lemma contains_lf_cons c s :
  contains [LF] (c :: s) = (c =? LF)%N || contains [LF] s.
Proof. cbn [contains startswith]. now rewrite andb_true_r, N.eqb_sym. Qed.

Lemma contains_lf_app a b :
  contains [LF] (a ++ b) = contains [LF] a || contains [LF] b.
Proof.
  induction a as [|c a IH].
  - cbn [app]. destruct b; reflexivity.
  - cbn [app]. rewrite !contains_lf_cons, IH. apply orb_assoc.
Qed.

Lemma contains_lf_in s : contains [LF] s = false <-> ~ In LF s.
Proof.
  induction s as [|c s IH].
  - cbn. tauto.
  - rewrite contains_lf_cons, orb_false_iff, IH, N.eqb_neq. cbn.
    intuition congruence.
Qed.

Lemma escape_no_lf o : contains [LF] (escape_vcard_value o) = false.
Proof.
  destruct o as [s|]; [|reflexivity].
  rewrite escape_vcard_value_pass. apply contains_lf_in, escape_pass_no_lf.
Qed.

Lemma terminator_free t s :
  is_terminator t -> contains [LF] s = false -> contains t s = false.
Proof.
  intros [-> | ->] H; [|exact H].
  destruct (contains [CR; LF] s) eqn:E; [|reflexivity].
  apply contains_iff in E as (a & b & ->).
  rewrite <- H. symmetry. apply contains_iff.
  exists (a ++ [CR]), b. now rewrite <- app_assoc.
Qed.

Ltac no_lf_line :=
  repeat rewrite contains_lf_app; rewrite ?escape_no_lf; reflexivity.

Lemma record_lines_no_lf
  full_name given surname preferred_name
  email phone github city country note avatar_uri pgp_key_uri pgp_fingerprint :
  Forall (fun L => contains [LF] L = false)
    (record_lines full_name given surname preferred_name email phone github
       city country note avatar_uri pgp_key_uri pgp_fingerprint).
Proof.
  unfold record_lines, identity_block, phone_block, email_block, link_block,
    address_block, note_block, avatar_block, key_uri_block,
    key_fingerprint_block, nickname_block, optional_field.
  repeat (apply Forall_app; split);
    repeat match goal with
           | |- Forall _ (if ?c then _ else _) => destruct c
           end;
    cbv zeta; repeat constructor; no_lf_line.
Qed.

(** *** Folding every line *)

Lemma fold_physical L t :
  fold_vcard_line L 75 t = Ok (join t (physical_lines L)).
Proof.
  unfold physical_lines.
  destruct (Z.leb_spec (len L) 75) as [H | H].
  - now apply fold_short.
  - rewrite fold_long by lia.
    change (Z.to_nat 75) with 75%nat.
    destruct (chunk_list (chunk_count (len L) 75) 75 L) as [|c cs];
      [reflexivity|].
    now rewrite join_sep_space.
Qed.

Lemma for_each_fold t pieces :
  for_each (fun L => fold_vcard_line L 75 t) pieces
  = Ok (List.map (fun L => join t (physical_lines L)) pieces).
Proof.
  induction pieces as [|L pieces IH]; [reflexivity|].
  cbn [for_each List.map]. now rewrite fold_physical, IH.
Qed.

Lemma physical_lines_nonempty L : physical_lines L <> [].
Proof.
  unfold physical_lines.
  destruct (Z.leb_spec (len L) 75) as [H | H]; [discriminate|].
  pose proof (@chunk_count_pos (len L) 75 ltac:(lia) ltac:(lia)) as Hpos.
  destruct (chunk_count (len L) 75); [lia|]. discriminate.
Qed.

Lemma join_app sep xs ys :
  xs <> [] -> ys <> [] ->
  join sep (xs ++ ys) = join sep xs ++ sep ++ join sep ys.
Proof.
  intros Hx Hy. induction xs as [|x xs IH]; [congruence|].
  destruct xs as [|x' xs].
  - destruct ys; [congruence | reflexivity].
  - change (join sep ((x :: x' :: xs) ++ ys))
      with (x ++ sep ++ join sep ((x' :: xs) ++ ys)).
    rewrite IH by discriminate.
    change (join sep (x :: x' :: xs)) with (x ++ sep ++ join sep (x' :: xs)).
    now rewrite <- !app_assoc.
Qed.

Lemma concat_nonempty {A : Type} (xss : list (list A)) :
  xss <> [] -> Forall (fun xs => xs <> []) xss -> concat xss <> [].
Proof.
  intros Hne Hall. destruct Hall as [|xs xss Hxs _]; [congruence|].
  destruct xs; [congruence | discriminate].
Qed.

Lemma join_concat sep (xss : list (list str)) :
  Forall (fun xs => xs <> []) xss ->
  join sep (List.map (join sep) xss) = join sep (concat xss).
Proof.
  intros Hall. induction Hall as [|xs xss Hxs Hall IH]; [reflexivity|].
  destruct xss as [|ys xss].
  - cbn. now rewrite app_nil_r.
  - change (join sep (List.map (join sep) (xs :: ys :: xss)))
      with (join sep xs ++ sep ++ join sep (List.map (join sep) (ys :: xss))).
    rewrite IH. cbn [concat].
    rewrite (@join_app sep xs (ys ++ concat xss)); [reflexivity | assumption |].
    apply (concat_nonempty (ys :: xss)); [discriminate | assumption].
Qed.

(** The segments of a folded line contain no terminator and are short. *)
Lemma physical_lines_free t L :
  is_terminator t -> contains [LF] L = false ->
  Forall (fun seg => contains t seg = false) (physical_lines L).
Proof.
  intros Ht HL. apply (terminator_free t L Ht) in HL.
  unfold physical_lines.
  destruct (len L <=? 75)%Z; [now constructor|].
  pose proof (@chunk_list_contains t 75 L (chunk_count (len L) 75) HL) as H.
  destruct (chunk_list (chunk_count (len L) 75) 75 L) as [|c cs];
    [constructor|].
  apply Forall_cons_iff in H as [H1 H2].
  constructor; [assumption | now apply Forall_space_cons].
Qed.

Lemma physical_lines_length L :
  exists first rest,
    physical_lines L = first :: List.map (cons SPACE) rest /\
    concat (first :: rest) = L /\
    Forall (fun seg => (len seg <= 75)%Z) (first :: rest).
Proof.
  unfold physical_lines.
  destruct (Z.leb_spec (len L) 75) as [H | H].
  - exists L, []. repeat split; [apply app_nil_r | now constructor].
  - pose proof (chunk_list_length 75 L (chunk_count (len L) 75)) as Hlen.
    assert (Hcat : concat (chunk_list (chunk_count (len L) 75) 75 L) = L).
    { apply chunk_list_concat.
      pose proof (@chunk_count_covers (len L) 75 ltac:(lia) ltac:(unfold len; lia)).
      unfold len in *. lia. }
    pose proof (@chunk_count_pos (len L) 75 ltac:(lia) ltac:(lia)) as Hpos.
    destruct (chunk_count (len L) 75) as [|c]; [lia|].
    cbn [chunk_list] in *.
    eexists _, _. repeat split; [exact Hcat|].
    eapply Forall_impl; [|exact Hlen]. intros p Hp. unfold len. cbv beta in Hp. lia.
Qed.

(** *** The payload *)

Section Builder.

Variables full_name given surname preferred_name : str.
Variables email phone github city country note : option str.
Variables avatar_uri pgp_key_uri pgp_fingerprint : option str.
Variable line_ending : str.

Lemma build_vcard_bad_avatar :
  uri_accepted avatar_uri = false ->
  build_vcard full_name given surname preferred_name email phone github city
    country note avatar_uri pgp_key_uri pgp_fingerprint line_ending
  = Err (ValueError Msg_avatar_not_http).
Proof.
  intros H. rewrite build_vcard_unfold, H. reflexivity.
Qed.

Lemma build_vcard_bad_key :
  uri_accepted avatar_uri = true -> uri_accepted pgp_key_uri = false ->
  build_vcard full_name given surname preferred_name email phone github city
    country note avatar_uri pgp_key_uri pgp_fingerprint line_ending
  = Err (ValueError Msg_pgp_key_not_http).
Proof.
  intros Ha Hk. rewrite build_vcard_unfold, Ha, Hk. reflexivity.
Qed.

Lemma build_vcard_good :
  is_terminator line_ending ->
  uri_accepted avatar_uri = true -> uri_accepted pgp_key_uri = true ->
  build_vcard full_name given surname preferred_name email phone github city
    country note avatar_uri pgp_key_uri pgp_fingerprint line_ending
  = Ok (join line_ending
          (List.map (fun L => join line_ending (physical_lines L))
             (record_lines full_name given surname preferred_name email phone
                github city country note avatar_uri pgp_key_uri
                pgp_fingerprint))
        ++ line_ending).
Proof.
  intros Ht Ha Hk. rewrite build_vcard_unfold, Ha, Hk.
  cbn [negb].
  rewrite split_join.
  - cbn [bind]. rewrite for_each_fold. reflexivity.
  - assumption.
  - discriminate.
  - eapply Forall_impl; [|apply record_lines_no_lf].
    intros L. apply terminator_free. assumption.
Qed.

Lemma build_vcard_inv out :
  is_terminator line_ending ->
  build_vcard full_name given surname preferred_name email phone github city
    country note avatar_uri pgp_key_uri pgp_fingerprint line_ending = Ok out ->
  uri_accepted avatar_uri = true /\ uri_accepted pgp_key_uri = true /\
  out = join line_ending
          (List.map (fun L => join line_ending (physical_lines L))
             (record_lines full_name given surname preferred_name email phone
                github city country note avatar_uri pgp_key_uri
                pgp_fingerprint))
        ++ line_ending.
Proof.
  intros Ht H.
  destruct (uri_accepted avatar_uri) eqn:Ha.
  - destruct (uri_accepted pgp_key_uri) eqn:Hk.
    + rewrite (build_vcard_good Ht Ha Hk) in H. now inversion H.
    + rewrite (build_vcard_bad_key Ha Hk) in H. discriminate.
  - rewrite (build_vcard_bad_avatar Ha) in H. discriminate.
Qed.

End Builder.

Lemma groups_of_lines (lines : list str) :
  exists groups : list (str * list str),
    List.map physical_lines lines
    = List.map (fun g => fst g :: List.map (cons SPACE) (snd g)) groups /\
    List.map (fun g => concat (fst g :: snd g)) groups = lines /\
    Forall (fun g => (len (fst g) <= 75)%Z
                     /\ Forall (fun c => (len c <= 75)%Z) (snd g)) groups.
Proof.
  induction lines as [|L lines (groups & H1 & H2 & H3)].
  - exists []. repeat split. constructor.
  - destruct (physical_lines_length L) as (first & rest & E & Hcat & Hlen).
    exists ((first, rest) :: groups). cbn [List.map fst snd].
    rewrite E, H1, H2, Hcat. repeat split.
    constructor; [|assumption]. cbn [fst snd].
    now apply Forall_cons_iff in Hlen.
Qed.

Lemma len_cons {A : Type} (a : A) (l : list A) : len (a :: l) = (1 + len l)%Z.
Proof. unfold len. cbn [length]. lia. Qed.

Lemma escape_plain s :
  forallb plain_char s = true -> escape_vcard_value (Some s) = s.
Proof.
  rewrite escape_vcard_value_pass.
  assert (Hc : forall c, plain_char c = true -> escape_char c = [c]).
  { intros c Hc. unfold plain_char in Hc. unfold escape_char.
    apply negb_true_iff in Hc.
    repeat (apply orb_false_iff in Hc as [Hc ?]).
    now rewrite Hc, H1, H0, H. }
  induction s as [| a | a b l IHl IHbl] using pair_induction; intros H.
  - reflexivity.
  - cbn [forallb] in H. apply andb_true_iff in H as [Ha _].
    cbn [escape_pass]. now apply Hc.
  - rewrite escape_pass_cons2.
    cbn [forallb] in H. apply andb_true_iff in H as [Ha Hbl].
    assert (Hb : (b =? LF)%N = false).
    { cbn [forallb] in Hbl. apply andb_true_iff in Hbl as [Hb _].
      unfold plain_char in Hb. apply negb_true_iff in Hb.
      now apply orb_false_iff in Hb as [_ Hb]. }
    rewrite Hb, andb_false_r, (Hc a Ha), (IHbl Hbl). reflexivity.
Qed.

Section BuilderClaims.

Variables full_name given surname preferred_name : str.
Variables email phone github city country note : option str.
Variables avatar_uri pgp_key_uri pgp_fingerprint : option str.
Variable line_ending : str.





End BuilderClaims.

Lemma segments_bound (groups : list (str * list str)) :
  Forall (fun g => (len (fst g) <= 75)%Z
                   /\ Forall (fun c => (len c <= 75)%Z) (snd g)) groups ->
  Forall (fun seg : str => (len seg <= 76)%Z)
    (concat (List.map (fun g => fst g :: List.map (cons SPACE) (snd g)) groups)
     ++ [[]]).
Proof.
  intros H. apply Forall_app. split.
  - apply Forall_concat. apply Forall_map.
    eapply Forall_impl; [|exact H]. intros [first rest] [H1 H2].
    cbn [fst snd] in *.
    constructor; [eapply Z.le_trans; [exact H1 | lia]|].
    apply Forall_map. eapply Forall_impl; [|exact H2].
    intros c Hc. cbv beta. rewrite len_cons.
    apply (Z.add_le_mono_l _ _ 1) in Hc. exact Hc.
  - constructor; [|constructor]. unfold len. cbn. lia.
Qed.

Section PhysicalLines.

Variables full_name given surname preferred_name : str.
Variables email phone github city country note : option str.
Variables avatar_uri pgp_key_uri pgp_fingerprint : option str.
Variable line_ending : str.

(** C10. When the builder succeeds (terminator CRLF or LF), the segments of
    the payload between terminators are, for each logical line of the
    record in turn, a first segment of at most 75 characters and
    continuation segments made of one space and at most 75 characters,
    followed by the empty segment after the trailing terminator; every
    segment has at most 76 characters. *)
Theorem build_vcard_physical_lines out :
  is_terminator line_ending ->
  build_vcard full_name given surname preferred_name email phone github city
    country note avatar_uri pgp_key_uri pgp_fingerprint line_ending = Ok out ->
  exists (segments : list str) (groups : list (str * list str)),
    split line_ending out = Ok segments /\
    segments =
      concat (List.map (fun g => fst g :: List.map (cons SPACE) (snd g)) groups)
      ++ [[]] /\
    List.map (fun g => concat (fst g :: snd g)) groups
      = record_lines full_name given surname preferred_name email phone github
          city country note avatar_uri pgp_key_uri pgp_fingerprint /\
    Forall (fun g => (len (fst g) <= 75)%Z
                     /\ Forall (fun c => (len c <= 75)%Z) (snd g)) groups /\
    Forall (fun seg => (len seg <= 76)%Z) segments.
Proof.
  intros Ht H.
  apply build_vcard_inv in H as (_ & _ & ->); [|assumption].
  set (lines := record_lines full_name given surname preferred_name email
                  phone github city country note avatar_uri pgp_key_uri
                  pgp_fingerprint).
  destruct (groups_of_lines lines) as (groups & Hmap & Hcat & Hlen).
  exists (concat (List.map physical_lines lines) ++ [[]]), groups.
  assert (Hne : concat (List.map physical_lines lines) <> []).
  { apply concat_nonempty; [discriminate|].
    apply Forall_map, Forall_forall. intros L _. apply physical_lines_nonempty. }
  split; [|split; [now rewrite Hmap | split; [exact Hcat | split; [exact Hlen|]]]].
  - rewrite <- map_map with (g := join line_ending).
    rewrite join_concat
      by (apply Forall_map, Forall_forall; intros L _; apply physical_lines_nonempty).
    replace (join line_ending (concat (List.map physical_lines lines)) ++ line_ending)
      with (join line_ending (concat (List.map physical_lines lines) ++ [[]]))
      by (rewrite join_snoc by assumption; now rewrite app_nil_r).
    apply split_join; [assumption | |].
    + intros E. now apply app_eq_nil in E as [_ E].
    + apply Forall_app. split.
      * apply Forall_concat, Forall_map.
        eapply Forall_impl; [|apply record_lines_no_lf].
        intros L HL. now apply physical_lines_free.
      * constructor; [|constructor].
        apply contains_nil. now apply is_terminator_nonempty.
  - rewrite Hmap. now apply segments_bound.
Qed.

End PhysicalLines.

(** ** The builder on the sample contact *)

Example build_sample_ftp_avatar :
  build_sample (lit "alice") (lit "ftp://x.com/a.jpg") [CR; LF]
  = Err (ValueError Msg_avatar_not_http).
Proof. reflexivity. Qed.

Example build_sample_https_avatar :
  build_sample (lit "alice") (lit "https://x.com/a.jpg") [CR; LF]
  = Ok (join [CR; LF]
          [ lit "BEGIN:VCARD"; lit "VERSION:3.0"; lit "FN:Alice Example";
            lit "N:Example;Alice;;;"; lit "EMAIL;TYPE=INTERNET:alice@example.com";
            lit "URL:https://github.com/alice";
            lit "X-SOCIALPROFILE;TYPE=github:https://github.com/alice";
            lit "item1.URL;type=pref:https://github.com/alice";
            lit "item1.X-ABLabel:GitHub";
            lit "PHOTO;VALUE=URI:https://x.com/a.jpg"; lit "END:VCARD" ]
        ++ [CR; LF]).
Proof. vm_compute. reflexivity. Qed.




Lemma build_vcard_physical_lines_witness :
  exists out,
    build_sample long_handle (lit "https://x.com/a.jpg") [LF] = Ok out /\
    exists (segments : list str) (groups : list (str * list str)),
      split [LF] out = Ok segments /\
      segments =
        concat (List.map (fun g => fst g :: List.map (cons SPACE) (snd g)) groups)
        ++ [[]] /\
      List.map (fun g => concat (fst g :: snd g)) groups
        = record_lines (lit "Alice Example") (lit "Alice") (lit "Example") []
            (Some (lit "alice@example.com")) (Some [])
            (Some long_handle)
            (Some []) (Some []) (Some []) (Some (lit "https://x.com/a.jpg"))
            (Some []) (Some []) /\
      Forall (fun g => (len (fst g) <= 75)%Z
                       /\ Forall (fun c => (len c <= 75)%Z) (snd g)) groups /\
      Forall (fun seg => (len seg <= 76)%Z) segments.
Proof.
  eexists. split; [vm_compute; reflexivity|].
  apply (build_vcard_physical_lines (lit "Alice Example") (lit "Alice")
           (lit "Example") [] (Some (lit "alice@example.com")) (Some [])
           (Some long_handle) (Some []) (Some []) (Some [])
           (Some (lit "https://x.com/a.jpg")) (Some []) (Some []) [LF]).
  - right; reflexivity.
  - vm_compute; reflexivity.
Defined.

(** ** The Field Escaper: the claims *)

(** C9. The escaper returns a string for every input, the empty string for
    an absent or empty one, and otherwise the result of the four ordered
    replacements, each applied to the result of the one before: backslash
    to two backslashes, semicolon to backslash semicolon, comma to backslash
    comma, and every CRLF or LF to backslash n. *)
Theorem escape_vcard_value_replacements :
  escape_vcard_value None = [] /\
  escape_vcard_value (Some []) = [] /\
  forall s : str,
    escape_vcard_value (Some s) =
    EscaperSpec.replace_every_newline
      (EscaperSpec.replace_every COMMA [BACKSLASH; COMMA]
         (EscaperSpec.replace_every SEMICOLON [BACKSLASH; SEMICOLON]
            (EscaperSpec.replace_every BACKSLASH [BACKSLASH; BACKSLASH] s))).
Proof.
  split; [reflexivity|]. split; [reflexivity|].
  intros s. rewrite escape_vcard_value_steps. reflexivity.
Qed.

Example escape_delimiters :
  escape_vcard_value (Some (lit "a;b,c\d")) = lit "a\;b\,c\\d".
Proof. reflexivity. Qed.

Example escape_newlines :
  escape_vcard_value (Some (lit "x" ++ [CR; LF] ++ lit "y" ++ [LF] ++ lit "z"))
  = lit "x\ny\nz".
Proof. reflexivity. Qed.

Example escape_backslash_n :
  escape_vcard_value (Some (lit "\n")) = lit "\\n".
Proof. reflexivity. Qed.

Example escape_lone_cr :
  escape_vcard_value (Some (lit "a" ++ [CR] ++ lit "b")) = lit "a" ++ [CR] ++ lit "b".
Proof. reflexivity. Qed.

(** C1, as stated, fails: a carriage return that is not followed by a line
    feed is kept by the escaper. *)
Lemma escape_vcard_value_keeps_lone_cr :
  ~ (well_escaped (escape_vcard_value (Some [CR])) = true /\
     ~ In CR (escape_vcard_value (Some [CR])) /\
     ~ In LF (escape_vcard_value (Some [CR]))).
Proof.
  intros (_ & H & _). apply H. cbn. now left.
Qed.

(** C1, amended. For every input the escaped string has every backslash,
    semicolon and comma inside an escape sequence and holds no line feed;
    it holds a carriage return exactly when the input has a carriage return
    that is not immediately followed by a line feed. *)
Theorem escape_vcard_value_no_raw_delimiter (s : option str) :
  well_escaped (escape_vcard_value s) = true /\
  ~ In LF (escape_vcard_value s) /\
  (In CR (escape_vcard_value s) <-> cr_only_in_crlf (val s) = false).
Proof.
  destruct s as [s|].
  - rewrite escape_vcard_value_pass. cbn [val].
    split; [apply well_escaped_pass|].
    split; [apply escape_pass_no_lf | apply escape_pass_cr].
  - cbn. repeat split; try tauto; discriminate.
Qed.

(** ** Fingerprints *)

Lemma upper_hex c : is_hex c = true -> is_upper_hex (upper_char c) = true.
Proof.
  unfold is_hex, is_upper_hex, upper_char. intros H.
  repeat match goal with
         | |- context [(?a <=? ?b)%N] => destruct (N.leb_spec a b)
         | H : context [(?a <=? ?b)%N] |- _ => destruct (N.leb_spec a b)
         end; cbn in *; try reflexivity; try discriminate; lia.
Qed.

Lemma upper_re_sub_hex fp :
  forallb is_upper_hex (upper (re_sub_non_hex fp)) = true.
Proof.
  unfold upper, re_sub_non_hex. induction fp as [|c fp IH]; [reflexivity|].
  cbn [filter]. destruct (is_hex c) eqn:E; [|exact IH].
  cbn [List.map forallb]. now rewrite (upper_hex c E), IH.
Qed.

(** The program's own computation of the normalized string decides the
    outcome by its length. *)
Lemma normalize_fingerprint_by_length (fp : str) :
  fp <> [] ->
  let s := upper (re_sub_non_hex fp) in
  (len s = 8%Z \/ len s = 16%Z \/ len s = 40%Z ->
   normalize_fingerprint fp = Ok s) /\
  (~ (len s = 8%Z \/ len s = 16%Z \/ len s = 40%Z) ->
   exists e, normalize_fingerprint fp = Err e /\
             is_invalid_fingerprint_error e = true).
Proof.
  intros Hne s.
  unfold normalize_fingerprint. destruct fp as [|c fp]; [congruence|].
  fold s. unfold fullmatch_upper_hex.
  pose proof (upper_re_sub_hex (c :: fp)) as Hhex. fold s in Hhex.
  cbn [existsb]. rewrite orb_false_r.
  split.
  - intros Hlen. destruct s as [|x s'] eqn:Es.
    + unfold len in Hlen. cbn in Hlen. lia.
    + rewrite Hhex. cbn [negb].
      destruct Hlen as [-> | [-> | ->]]; reflexivity.
  - intros Hlen. destruct s as [|x s'] eqn:Es.
    + eexists. split; reflexivity.
    + rewrite Hhex. cbn [negb].
      destruct (Z.eqb_spec (len (x :: s')) 8); [tauto|].
      destruct (Z.eqb_spec (len (x :: s')) 16); [tauto|].
      destruct (Z.eqb_spec (len (x :: s')) 40); [tauto|].
      eexists. split; reflexivity.
Qed.

(** The character class of the program is the alphabet of the
    specification. *)
Lemma is_hex_alphabet c :
  is_hex c = true <-> In c FingerprintSpec.hex_characters.
Proof.
  split.
  - unfold is_hex. intros H.
    assert (Hr : (48 <= c <= 57 \/ 65 <= c <= 70 \/ 97 <= c <= 102)%N).
    { apply orb_true_iff in H as [H | H];
        [apply orb_true_iff in H as [H | H]|];
        apply andb_true_iff in H as [H1 H2];
        apply N.leb_le in H1, H2; lia. }
    clear H. cbv [FingerprintSpec.hex_characters lit List.map
                    list_ascii_of_string N_of_ascii N_of_digits In
                    N.add N.mul Pos.add Pos.mul Pos.succ].
    lia.
  - intros H.
    cbv [FingerprintSpec.hex_characters lit List.map list_ascii_of_string
           N_of_ascii N_of_digits In N.add N.mul Pos.add Pos.mul Pos.succ] in H.
    repeat (destruct H as [<- | H]; [reflexivity|]). destruct H.
Qed.

Lemma is_hex_character_spec c :
  FingerprintSpec.is_hex_character c = is_hex c.
Proof.
  unfold FingerprintSpec.is_hex_character.
  destruct (is_hex c) eqn:E.
  - apply existsb_exists. exists c. split; [now apply is_hex_alphabet|].
    apply N.eqb_refl.
  - destruct (existsb (N.eqb c) FingerprintSpec.hex_characters) eqn:Ex;
      [|reflexivity].
    apply existsb_exists in Ex as (x & Hin & Hx).
    apply N.eqb_eq in Hx. subst x.
    apply is_hex_alphabet in Hin. congruence.
Qed.

Lemma uppercase_spec c :
  is_hex c = true ->
  FingerprintSpec.uppercase c = upper_char c /\
  In (upper_char c) FingerprintSpec.upper_hex_characters.
Proof.
  intros H. apply is_hex_alphabet in H.
  cbv [FingerprintSpec.hex_characters lit List.map list_ascii_of_string
         N_of_ascii N_of_digits In N.add N.mul Pos.add Pos.mul Pos.succ] in H.
  repeat (destruct H as [<- | H]; [split; [reflexivity | vm_compute; tauto]|]).
  destruct H.
Qed.

Lemma normalized_spec fp :
  FingerprintSpec.normalized fp = upper (re_sub_non_hex fp) /\
  Forall (fun c => In c FingerprintSpec.upper_hex_characters)
    (FingerprintSpec.normalized fp).
Proof.
  unfold FingerprintSpec.normalized, upper, re_sub_non_hex.
  induction fp as [|c fp [IH1 IH2]]; [split; [reflexivity | constructor]|].
  cbn [filter]. rewrite is_hex_character_spec.
  destruct (is_hex c) eqn:E; [|now split].
  destruct (uppercase_spec c E) as [Hu Hin].
  cbn [List.map]. rewrite Hu, IH1. split; [reflexivity|].
  constructor; [exact Hin|]. now rewrite <- IH1.
Qed.

(** C4. For a non-empty fingerprint, let [s] be the fingerprint with every
    character that is not a hexadecimal digit removed and the remaining
    digits in upper case.  [s] is made of characters of [0-9A-F]; the
    function returns [s] when its length is 8, 16 or 40, and fails
    otherwise, with one of the two fingerprint errors.  So the 40 digits
    with colon separators are returned in upper case, and [zz] (no digit)
    and [1234567] (7 digits) are refused. *)
Theorem normalize_fingerprint_lengths (fp : str) :
  fp <> [] ->
  let s := FingerprintSpec.normalized fp in
  Forall (fun c => In c (lit "0123456789ABCDEF")) s /\
  (len s = 8%Z \/ len s = 16%Z \/ len s = 40%Z ->
   normalize_fingerprint fp = Ok s) /\
  (~ (len s = 8%Z \/ len s = 16%Z \/ len s = 40%Z) ->
   exists e, normalize_fingerprint fp = Err e /\
             is_invalid_fingerprint_error e = true).
Proof.
  intros Hne s.
  destruct (normalized_spec fp) as [Hs Halpha]. fold s in Hs, Halpha.
  split; [exact Halpha|].
  rewrite Hs. exact (normalize_fingerprint_by_length fp Hne).
Qed.

Lemma normalize_fingerprint_lengths_witness :
  normalize_fingerprint sample_fingerprint
  = Ok (lit "ABCDEF0123456789ABCDEF0123456789ABCDEF01") /\
  len (lit "ABCDEF0123456789ABCDEF0123456789ABCDEF01") = 40%Z /\
  (exists e, normalize_fingerprint (lit "zz") = Err e /\
             is_invalid_fingerprint_error e = true) /\
  (exists e, normalize_fingerprint (lit "1234567") = Err e /\
             is_invalid_fingerprint_error e = true).
Proof.
  split; [|split; [reflexivity | split]].
  - apply (proj1 (proj2 (normalize_fingerprint_lengths sample_fingerprint
                           ltac:(discriminate)))).
    right. right. reflexivity.
  - apply (proj2 (proj2 (normalize_fingerprint_lengths (lit "zz")
                           ltac:(discriminate)))).
    vm_compute. intros [H | [H | H]]; discriminate H.
  - apply (proj2 (proj2 (normalize_fingerprint_lengths (lit "1234567")
                           ltac:(discriminate)))).
    vm_compute. intros [H | [H | H]]; discriminate H.
Defined.

Example normalize_fingerprint_40 :
  normalize_fingerprint sample_fingerprint
  = Ok (lit "ABCDEF0123456789ABCDEF0123456789ABCDEF01").
Proof. reflexivity. Qed.

Example normalize_fingerprint_lower :
  normalize_fingerprint (lit "ab cd ef 01") = Ok (lit "ABCDEF01").
Proof. reflexivity. Qed.

Example normalize_fingerprint_zz :
  normalize_fingerprint (lit "zz") = Err (ValueError Msg_fp_invalid_characters).
Proof. reflexivity. Qed.

Example normalize_fingerprint_7 :
  normalize_fingerprint (lit "1234567") = Err (ValueError Msg_fp_length).
Proof. reflexivity. Qed.

(** ** The Size Validator *)

Lemma utf8_of_char_some c :
  is_surrogate c = false -> exists bs, utf8_of_char c = Some bs.
Proof.
  unfold is_surrogate, utf8_of_char. intros ->.
  destruct (c <? 128)%N; [eexists; reflexivity|].
  destruct (c <? 2048)%N; [eexists; reflexivity|].
  destruct (c <? 65536)%N; eexists; reflexivity.
Qed.

Lemma encode_utf8_from_total position s :
  forallb (fun c => negb (is_surrogate c)) s = true ->
  exists bytes, encode_utf8_from position s = Ok bytes.
Proof.
  revert position; induction s as [|c s IH]; intros position H.
  - now exists [].
  - cbn [forallb] in H. apply andb_true_iff in H as [Hc Hs].
    apply negb_true_iff in Hc.
    destruct (utf8_of_char_some c Hc) as [bs Hbs].
    destruct (IH (S position) Hs) as [rest Hrest].
    exists (bs ++ rest). cbn [encode_utf8_from]. now rewrite Hbs, Hrest.
Qed.

(** C3, as stated, fails: a payload holding a lone surrogate code point has
    no UTF-8 encoding, and the validator ends with the encoder's error, not
    with a size verdict. *)
Lemma approx_size_lone_surrogate :
  ~ (snd (approx_size_warn_and_check [55296%N]) = Ok tt \/
     exists n, snd (approx_size_warn_and_check [55296%N])
               = Err (ValueError (Msg_too_large n))).
Proof.
  intros [H | [n H]]; discriminate.
Qed.

(** C3, amended. For every payload without surrogate code points, the
    validator measures the length of the UTF-8 encoding; it prints a warning
    carrying that length when the length exceeds 2000, and it fails with the
    too-large error carrying that length when the length exceeds 2950;
    otherwise it returns normally. *)
Theorem approx_size_thresholds (s : str) :
  forallb (fun c => negb (is_surrogate c)) s = true ->
  exists bytes,
    encode_utf8 s = Ok bytes /\
    approx_size_warn_and_check s =
    ((if (2000 <? len bytes)%Z then [Warning_large_payload (len bytes)] else []),
     (if (2950 <? len bytes)%Z then Err (ValueError (Msg_too_large (len bytes)))
      else Ok tt)).
Proof.
  intros H. destruct (encode_utf8_from_total 0 s H) as [bytes Hb].
  exists bytes. split; [exact Hb|].
  unfold approx_size_warn_and_check. unfold encode_utf8. rewrite Hb.
  unfold WARN_QR_BYTES, MAX_QR_BYTES.
  destruct (2950 <? len bytes)%Z; reflexivity.
Qed.

Lemma approx_size_thresholds_witness :
  exists bytes,
    encode_utf8 (repeat 97%N 3000) = Ok bytes /\
    approx_size_warn_and_check (repeat 97%N 3000) =
    ((if (2000 <? len bytes)%Z then [Warning_large_payload (len bytes)] else []),
     (if (2950 <? len bytes)%Z then Err (ValueError (Msg_too_large (len bytes)))
      else Ok tt)).
Proof.
  apply (approx_size_thresholds (repeat 97%N 3000)).
  vm_compute. reflexivity.
Defined.

Example approx_size_3000 :
  approx_size_warn_and_check (repeat 97%N 3000)
  = ([Warning_large_payload 3000], Err (ValueError (Msg_too_large 3000))).
Proof. vm_compute. reflexivity. Qed.

Example approx_size_2500 :
  approx_size_warn_and_check (repeat 97%N 2500)
  = ([Warning_large_payload 2500], Ok tt).
Proof. vm_compute. reflexivity. Qed.

Example approx_size_2000 :
  approx_size_warn_and_check (repeat 97%N 2000) = ([], Ok tt).
Proof. vm_compute. reflexivity. Qed.

(** 1001 times U+00E9, two bytes each. *)
Example approx_size_two_byte :
  approx_size_warn_and_check (repeat 233%N 1001)
  = ([Warning_large_payload 2002], Ok tt).
Proof. vm_compute. reflexivity. Qed.

Example approx_size_surrogate :
  approx_size_warn_and_check [55296%N] = ([], Err (UnicodeEncodeError 0)).
Proof. reflexivity. Qed.

(** The payload [main] hands on is the one the builder returned, whatever
    was printed. *)
Lemma main_payload args printed vcard :
  main args = (printed, GenerateQr vcard) ->
  exists fp,
    build_vcard
      (main_fn args (fst (main_given_surname args)) (snd (main_given_surname args)))
      (fst (main_given_surname args)) (snd (main_given_surname args))
      (strip (Args.preferred_name args))
      (Some (Args.email args)) (Some (Args.phone args))
      (Some (Args.github args)) (Some (Args.city args))
      (Some (Args.country args)) (Some (Args.note args))
      (Some (Args.avatar args)) (Some (Args.pgp_key_uri args)) (Some fp)
      (match Args.line_ending args with
       | Args.crlf => [CR; LF]
       | Args.lf => [LF]
       end) = Ok vcard.
Proof.
  unfold main. intros H.
  repeat match type of H with
         | (if ?c then _ else _) = _ => destruct c; [discriminate|]
         end.
  match type of H with
  | (match ?x with _ => _ end) = _ => destruct x as [pr [fp | e]]
  end; [|discriminate].
  exists fp. destruct (main_given_surname args) as [g sn]. cbn [fst snd].
  match type of H with
  | (match ?x with _ => _ end) = _ => destruct x as [v | e] eqn:Eb
  end; [|discriminate].
  destruct (approx_size_warn_and_check v) as [w [u | e]]; [|discriminate].
  injection H as _ <-. exact Eb.
Qed.

(** ** White space: [strip] and [split] *)

Lemma lstrip_spaces ws y :
  Forall (fun c => isspace c = true) ws -> lstrip (ws ++ y) = lstrip y.
Proof.
  induction 1 as [|c ws Hc _ IH]; [reflexivity|].
  cbn [app lstrip]. now rewrite Hc.
Qed.

Lemma lstrip_head c y : isspace c = false -> lstrip (c :: y) = c :: y.
Proof. intros H. cbn [lstrip]. now rewrite H. Qed.

Lemma lstrip_split y :
  exists ws, Forall (fun c => isspace c = true) ws /\ y = ws ++ lstrip y.
Proof.
  induction y as [|c y (ws & Hws & E)].
  - now exists [].
  - cbn [lstrip]. destruct (isspace c) eqn:Hc.
    + exists (c :: ws). split; [now constructor|]. cbn [app]. now rewrite <- E.
    + now exists [].
Qed.

Lemma lstrip_head_nonspace y c r : lstrip y = c :: r -> isspace c = false.
Proof.
  induction y as [|d y IH]; [discriminate|].
  cbn [lstrip]. destruct (isspace d) eqn:Hd; [exact IH|].
  intros E. injection E as <- _. exact Hd.
Qed.

Lemma lstrip_idem y : lstrip (lstrip y) = lstrip y.
Proof.
  destruct (lstrip y) as [|c r] eqn:E; [reflexivity|].
  apply lstrip_head, (lstrip_head_nonspace y c r E).
Qed.

Lemma rstrip_split x :
  exists ws, Forall (fun c => isspace c = true) ws /\ x = rstrip x ++ ws.
Proof.
  destruct (lstrip_split (rev x)) as (ws & Hws & E).
  exists (rev ws). split; [now apply Forall_rev|].
  unfold rstrip. rewrite <- rev_app_distr, <- E. symmetry. apply rev_involutive.
Qed.

Lemma rstrip_idem x : rstrip (rstrip x) = rstrip x.
Proof. unfold rstrip. now rewrite rev_involutive, lstrip_idem. Qed.

Lemma strip_stripped x : stripped (strip x).
Proof.
  unfold stripped, strip. split; [|apply rstrip_idem].
  destruct (rstrip (lstrip x)) as [|c r] eqn:E; [reflexivity|].
  apply lstrip_head.
  destruct (rstrip_split (lstrip x)) as (ws & _ & Hx). rewrite E in Hx.
  apply (lstrip_head_nonspace x c (r ++ ws)). exact Hx.
Qed.

Lemma stripped_strip s : stripped s -> strip s = s.
Proof. intros [H1 H2]. unfold strip. now rewrite H1. Qed.

Lemma strip_idem x : strip (strip x) = strip x.
Proof. apply stripped_strip, strip_stripped. Qed.

Lemma stripped_head c r : stripped (c :: r) -> isspace c = false.
Proof. intros [H _]. exact (lstrip_head_nonspace (c :: r) c r H). Qed.

Lemma stripped_rev_fixed s : stripped s -> lstrip (rev s) = rev s.
Proof.
  intros [_ H]. unfold rstrip in H.
  rewrite <- (rev_involutive (lstrip (rev s))). now rewrite H.
Qed.

Lemma lstrip_app_fixed y z :
  y <> [] -> lstrip y = y -> lstrip (y ++ z) = y ++ z.
Proof.
  destruct y as [|c y]; [congruence|]. intros _ H.
  cbn [app]. apply lstrip_head. exact (lstrip_head_nonspace _ c y H).
Qed.

Lemma rev_nonempty (b : str) : b <> [] -> rev b <> [].
Proof.
  intros Hb E. apply (f_equal (@rev char)) in E.
  rewrite rev_involutive in E. now subst b.
Qed.

(** Joining two stripped, non-empty strings by a space gives a stripped
    string. *)
Lemma strip_join2 a b :
  a <> [] -> b <> [] -> stripped a -> stripped b ->
  strip (a ++ lit " " ++ b) = a ++ lit " " ++ b.
Proof.
  intros Ha Hb Sa Sb. unfold strip.
  rewrite (lstrip_app_fixed a _ Ha (proj1 Sa)).
  rewrite app_assoc. unfold rstrip. rewrite rev_app_distr.
  rewrite (lstrip_app_fixed (rev b) _ (rev_nonempty b Hb) (stripped_rev_fixed b Sb)).
  rewrite <- rev_app_distr. apply rev_involutive.
Qed.

Lemma split_ws_cons c t :
  split_ws (c :: t) =
  if isspace c then split_ws t
  else match t with
       | [] => [[c]]
       | d :: _ =>
           if isspace d then [c] :: split_ws t
           else match split_ws t with
                | w :: ws => (c :: w) :: ws
                | [] => [[c]]
                end
       end.
Proof. reflexivity. Qed.

Lemma split_ws_nil t : split_ws t = [] -> Forall (fun c => isspace c = true) t.
Proof.
  induction t as [|c t IH]; [constructor|].
  rewrite split_ws_cons. destruct (isspace c) eqn:Hc.
  - intros H. constructor; [exact Hc | now apply IH].
  - destruct t as [|d t']; [discriminate|].
    destruct (isspace d); [discriminate|].
    destruct (split_ws (d :: t')); discriminate.
Qed.

(** A string with one token is that token between white space. *)
Lemma split_ws_single x tok :
  split_ws x = [tok] ->
  exists pre post,
    x = pre ++ tok ++ post /\
    Forall (fun c => isspace c = true) pre /\
    Forall (fun c => isspace c = true) post /\
    tok <> [] /\ Forall (fun c => isspace c = false) tok.
Proof.
  revert tok; induction x as [|c t IH]; intros tok; [discriminate|].
  rewrite split_ws_cons. destruct (isspace c) eqn:Hc.
  - intros H. destruct (IH tok H) as (pre & post & -> & H1 & H2 & H3 & H4).
    exists (c :: pre), post. repeat split; try assumption. now constructor.
  - destruct t as [|d t'].
    + intros H. injection H as <-. exists [], [].
      split; [reflexivity|]. split; [constructor|]. split; [constructor|].
      split; [discriminate|]. constructor; [exact Hc | constructor].
    + destruct (isspace d) eqn:Hd.
      * intros H. injection H as <- Hnil.
        exists [], (d :: t').
        split; [reflexivity|]. split; [constructor|].
        split; [apply split_ws_nil; exact Hnil|].
        split; [discriminate|]. constructor; [exact Hc | constructor].
      * destruct (split_ws (d :: t')) as [|w ws] eqn:Ew.
        { apply split_ws_nil in Ew. apply Forall_cons_iff in Ew as [Ew _].
          congruence. }
        intros H. injection H as <- ->.
        destruct (IH w eq_refl) as (pre & post & E & H1 & H2 & H3 & H4).
        destruct pre as [|p pre].
        -- cbn [app] in E. exists [], post. cbn [app]. rewrite E.
           split; [reflexivity|]. split; [constructor|].
           split; [assumption|]. split; [discriminate|].
           constructor; assumption.
        -- cbn [app] in E. injection E as <- _.
           apply Forall_cons_iff in H1 as [H1 _]. congruence.
Qed.

Lemma lstrip_nonspace tok r :
  tok <> [] -> Forall (fun c => isspace c = false) tok ->
  lstrip (tok ++ r) = tok ++ r.
Proof.
  intros Hne H. destruct H as [|c tok Hc _]; [congruence|].
  now apply lstrip_head.
Qed.

Lemma strip_single x tok : split_ws x = [tok] -> strip x = tok.
Proof.
  intros H. destruct (split_ws_single x tok H) as (pre & post & -> & H1 & H2 & H3 & H4).
  unfold strip. rewrite lstrip_spaces by assumption.
  rewrite lstrip_nonspace by assumption.
  unfold rstrip. rewrite rev_app_distr.
  rewrite lstrip_spaces by (now apply Forall_rev).
  rewrite <- (app_nil_r (rev tok)).
  rewrite lstrip_nonspace.
  - rewrite app_nil_r. apply rev_involutive.
  - intros E. apply (f_equal (@rev char)) in E. rewrite rev_involutive in E.
    now subst tok.
  - now apply Forall_rev.
Qed.

(** ** Name resolution in [main] *)

Lemma nonempty_false s : nonempty s = false <-> s = [].
Proof. destruct s; split; congruence || reflexivity || discriminate. Qed.

Lemma nonempty_true s : nonempty s = true <-> s <> [].
Proof. destruct s; split; congruence || reflexivity || discriminate. Qed.

Lemma main_given_surname_explicit args :
  strip (Args.given args) <> [] \/ strip (Args.surname args) <> [] ->
  main_given_surname args = (strip (Args.given args), strip (Args.surname args)).
Proof.
  intros H. unfold main_given_surname.
  destruct H as [H | H]; apply nonempty_true in H; rewrite H;
    [reflexivity | now rewrite orb_true_r].
Qed.

Lemma main_given_surname_split args :
  strip (Args.given args) = [] -> strip (Args.surname args) = [] ->
  main_given_surname args =
  let tokens := split_ws (strip (Args.name args)) in
  if (2 <=? len tokens)%Z
  then (join (lit " ") (removelast tokens), last tokens [])
  else (strip (Args.name args), []).
Proof.
  intros Hg Hs. unfold main_given_surname. rewrite Hg, Hs. reflexivity.
Qed.

Lemma main_given_surname_stripped args :
  strip (Args.name args) = [] ->
  stripped (fst (main_given_surname args)) /\
  stripped (snd (main_given_surname args)).
Proof.
  intros Hn.
  destruct (list_eq_dec N.eq_dec (strip (Args.given args)) []) as [Hg | Hg].
  - destruct (list_eq_dec N.eq_dec (strip (Args.surname args)) []) as [Hs | Hs].
    + rewrite (main_given_surname_split args Hg Hs), Hn. cbn. now split.
    + rewrite (main_given_surname_explicit args (or_intror Hs)).
      split; apply strip_stripped.
  - rewrite (main_given_surname_explicit args (or_introl Hg)).
    split; apply strip_stripped.
Qed.

Lemma strip_join_names g s :
  stripped g -> stripped s ->
  strip (join (lit " ") (filter nonempty [g; s]))
  = join (lit " ") (filter nonempty [g; s]).
Proof.
  intros Sg Ss. cbn [filter].
  destruct (nonempty g) eqn:Hg, (nonempty s) eqn:Hs; cbn [join].
  - apply strip_join2; try assumption; now apply nonempty_true.
  - now apply stripped_strip.
  - now apply stripped_strip.
  - reflexivity.
Qed.

(** C7. With [name], [given], [surname] the stripped arguments: the
    formatted name is [name] when it is not empty; otherwise it is the
    stripped preferred name, followed by a space and the surname when there
    is a surname, if a preferred name is supplied, and the given name and
    surname that are not empty joined by a space if none is.  The given name
    and surname are the stripped arguments when one of them is not empty;
    otherwise [name] is split on white space, and with two tokens or more
    the surname is the last token and the given name the other tokens joined
    by a space, with one token the given name is that token and the surname
    is empty, and with no token both are empty. *)
Theorem main_name_resolution (args : Args.t) :
  let name := strip (Args.name args) in
  let given := fst (main_given_surname args) in
  let surname := snd (main_given_surname args) in
  let fn := main_fn args given surname in
  (name <> [] -> fn = name) /\
  (name = [] -> Args.preferred_name args <> [] ->
   fn = strip (Args.preferred_name args)
        ++ (if nonempty surname then lit " " ++ surname else [])) /\
  (name = [] -> Args.preferred_name args = [] ->
   fn = join (lit " ") (filter nonempty [given; surname])) /\
  (strip (Args.given args) <> [] \/ strip (Args.surname args) <> [] ->
   given = strip (Args.given args) /\ surname = strip (Args.surname args)) /\
  (strip (Args.given args) = [] -> strip (Args.surname args) = [] ->
   let tokens := split_ws name in
   ((2 <= length tokens)%nat ->
    surname = last tokens [] /\ given = join (lit " ") (removelast tokens)) /\
   (forall tok, tokens = [tok] -> given = tok /\ surname = []) /\
   (tokens = [] -> given = [] /\ surname = [])).
Proof.
  intros name given surname fn.
  split; [|split; [|split; [|split]]].
  - intros H. unfold fn, main_fn. fold name.
    apply nonempty_true in H. now rewrite H.
  - intros Hn Hp. unfold fn, main_fn. fold name.
    apply nonempty_false in Hn. apply nonempty_true in Hp.
    rewrite Hn, Hp. cbn [negb].
    destruct (nonempty surname); [reflexivity | symmetry; apply app_nil_r].
  - intros Hn Hp. unfold fn, main_fn. fold name.
    destruct (main_given_surname_stripped args Hn) as [Sg Ss].
    apply nonempty_false in Hn. rewrite Hn, Hp. cbn [negb nonempty].
    now apply strip_join_names.
  - intros H. unfold given, surname.
    now rewrite (main_given_surname_explicit args H).
  - intros Hg Hs tokens. unfold given, surname.
    rewrite (main_given_surname_split args Hg Hs). cbv zeta.
    fold name. fold tokens.
    split; [|split].
    + intros Hlen. destruct (Z.leb_spec 2 (len tokens)) as [_ | Hlt];
        [now split | unfold len in Hlt; lia].
    + intros tok Htok. rewrite Htok. cbn [len length Z.leb fst snd].
      change ((2 <=? Z.of_nat 1)%Z) with false. cbn [fst snd].
      split; [|reflexivity].
      unfold name. rewrite <- strip_idem. apply strip_single. exact Htok.
    + intros Htok. rewrite Htok. cbn [fst snd].
      change ((2 <=? len (@nil str))%Z) with false. cbn [fst snd].
      split; [|reflexivity].
      unfold tokens in Htok. apply split_ws_nil in Htok.
      unfold name. rewrite <- strip_idem. fold name.
      destruct name as [|c r] eqn:E; [reflexivity|].
      pose proof (strip_stripped (Args.name args)) as Sn.
      unfold name in E. rewrite E in Sn.
      apply stripped_head in Sn. apply Forall_cons_iff in Htok as [Htok _].
      congruence.
Qed.

Example main_given_surname_ada :
  main_given_surname sample_args = (lit "Ada", lit "Lovelace").
Proof. reflexivity. Qed.

Example main_fn_ada :
  main_fn sample_args (lit "Ada") (lit "Lovelace") = lit "Ada Lovelace".
Proof. reflexivity. Qed.

Lemma main_name_resolution_witness :
  fst (main_given_surname sample_args) = lit "Ada" /\
  snd (main_given_surname sample_args) = lit "Lovelace".
Proof.
  destruct (main_name_resolution sample_args) as (_ & _ & _ & _ & H).
  destruct (H eq_refl eq_refl) as (H2 & _ & _).
  destruct (H2 ltac:(vm_compute; lia)) as [Hs Hg].
  split; [exact Hg | exact Hs].
Defined.

(** The whole run on the sample arguments: given name and surname derived
    from the full name, the profile handle expanded. *)
Example main_alice :
  main alice_args =
  ([], GenerateQr
         (join [CR; LF]
            [ lit "BEGIN:VCARD"; lit "VERSION:3.0"; lit "FN:Alice Example";
              lit "N:Example;Alice;;;";
              lit "EMAIL;TYPE=INTERNET:alice@example.com";
              lit "URL:https://github.com/alice";
              lit "X-SOCIALPROFILE;TYPE=github:https://github.com/alice";
              lit "item1.URL;type=pref:https://github.com/alice";
              lit "item1.X-ABLabel:GitHub"; lit "END:VCARD" ]
          ++ [CR; LF])).
Proof. vm_compute. reflexivity. Qed.

(* ================================================================== *)
(** * Further properties *)

(** ** The Line Folder outside its intended widths and in detail *)

(** X1. With a width of zero a non-empty line makes the folder raise (the
    step of [range] is zero); with a negative width every line is folded to
    the empty string. *)
Theorem fold_vcard_line_bad_width (L : str) (w : Z) (t : str) :
  (w <= 0)%Z -> (w < len L)%Z ->
  fold_vcard_line L w t =
  if (w =? 0)%Z then Err (ValueError Msg_range_step_zero) else Ok [].
Proof.
  intros Hw Hlen. unfold fold_vcard_line, py_range.
  destruct (Z.leb_spec (len L) w); [lia|].
  destruct (Z.eqb_spec w 0) as [-> | Hne]; [reflexivity|].
  destruct (Z.ltb_spec 0 w); [lia|].
  cbn [bind].
  replace (Z.to_nat ((0 - len L - w - 1) / - w)) with 0%nat; [reflexivity|].
  assert ((0 - len L - w - 1) / - w <= 0)%Z; [|lia].
  assert (0 <= len L)%Z by (unfold len; lia).
  destruct (Z.lt_ge_cases (0 - len L - w - 1) 0) as [Hneg | Hpos].
  - assert ((0 - len L - w - 1) / - w < 0)%Z by (apply Z.div_lt_upper_bound; lia).
    lia.
  - rewrite Z.div_small by lia. lia.
Qed.

Lemma fold_vcard_line_bad_width_witness :
  fold_vcard_line (lit "abc") 0 [CR; LF] =
  if (0 =? 0)%Z then Err (ValueError Msg_range_step_zero) else Ok [].
Proof.
  apply (fold_vcard_line_bad_width (lit "abc") 0 [CR; LF]).
  - lia.
  - vm_compute. reflexivity.
Defined.

Example fold_negative_width :
  fold_vcard_line (lit "abc") (-2) [CR; LF] = Ok [].
Proof. reflexivity. Qed.

Lemma chunk_count_bounds n w :
  (1 <= w)%Z -> (1 <= n)%Z ->
  ((Z.of_nat (chunk_count n w) - 1) * w < n <= Z.of_nat (chunk_count n w) * w)%Z.
Proof.
  intros Hw Hn. unfold chunk_count.
  pose proof (Z.div_mod (n + w - 1) w ltac:(lia)) as E.
  pose proof (Z.mod_pos_bound (n + w - 1) w ltac:(lia)) as B.
  assert (0 <= (n + w - 1) / w)%Z by (apply Z.div_pos; lia).
  rewrite Z2Nat.id by assumption. nia.
Qed.

Lemma chunk_list_count count w s : length (chunk_list count w s) = count.
Proof.
  revert s; induction count as [|c IH]; intros s; [reflexivity|].
  cbn [chunk_list length]. now rewrite IH.
Qed.

Lemma chunk_list_sizes w count s :
  (1 <= w)%nat -> (1 <= count)%nat ->
  ((count - 1) * w < length s)%nat -> (length s <= count * w)%nat ->
  Forall (fun c => length c = w) (removelast (chunk_list count w s)) /\
  (1 <= length (last (chunk_list count w s) []) <= w)%nat.
Proof.
  intros Hw. revert s; induction count as [|c IH]; intros s Hc Hlo Hhi; [lia|].
  destruct c as [|c].
  - cbn [chunk_list removelast last]. split; [constructor|].
    rewrite length_firstn. lia.
  - change (chunk_list (S (S c)) w s)
      with (firstn w s :: chunk_list (S c) w (skipn w s)).
    assert (Hrest : chunk_list (S c) w (skipn w s)
                    = firstn w (skipn w s) :: chunk_list c w (skipn w (skipn w s)))
      by reflexivity.
    destruct (IH (skipn w s)) as [IH1 IH2];
      [lia | rewrite length_skipn; nia | rewrite length_skipn; nia |].
    rewrite Hrest in *.
    cbn [removelast last] in *. split; [|exact IH2].
    constructor; [|exact IH1].
    rewrite length_firstn. nia.
Qed.

Lemma length_join sep parts :
  parts <> [] ->
  length (join sep parts)
  = (length (concat parts) + (length parts - 1) * length sep)%nat.
Proof.
  induction parts as [|p parts IH]; [congruence|]. intros _.
  destruct parts as [|q parts].
  - cbn. rewrite app_nil_r. lia.
  - change (join sep (p :: q :: parts)) with (p ++ sep ++ join sep (q :: parts)).
    rewrite !length_app, IH by discriminate.
    cbn [concat length]. rewrite !length_app. lia.
Qed.

(** X2. For a width [w >= 1] and a line longer than [w], whatever the line
    and the line ending hold, the folder returns the chunks of the line
    joined by the line ending and one space: the chunks concatenate to the
    line, there are ceil(len/w) of them, every chunk but the last has
    exactly [w] characters and the last has between 1 and [w]. *)
Theorem fold_vcard_line_chunks (L : str) (w : Z) (t : str) :
  (1 <= w)%Z -> (w < len L)%Z ->
  exists chunks,
    fold_vcard_line L w t = Ok (join (t ++ [SPACE]) chunks) /\
    concat chunks = L /\
    len chunks = ((len L + w - 1) / w)%Z /\
    Forall (fun c => len c = w) (removelast chunks) /\
    (1 <= len (last chunks []) <= w)%Z.
Proof.
  intros Hw Hlen.
  exists (chunk_list (chunk_count (len L) w) (Z.to_nat w) L).
  pose proof (chunk_count_bounds (len L) w Hw ltac:(lia)) as [Hlo Hhi].
  pose proof (chunk_count_pos (len L) w Hw ltac:(lia)) as Hpos.
  split; [now apply fold_long|].
  split; [apply chunk_list_concat; unfold len in *; nia|].
  split.
  { unfold len at 1. rewrite chunk_list_count. unfold chunk_count.
    rewrite Z2Nat.id; [reflexivity | apply Z.div_pos; unfold len; lia]. }
  destruct (chunk_list_sizes (Z.to_nat w) (chunk_count (len L) w) L)
    as [H1 H2]; try (unfold len in *; nia).
  split.
  - eapply Forall_impl; [|exact H1]. intros c Hc. unfold len. cbv beta in Hc. lia.
  - destruct H2 as [Ha Hb]. unfold len. split.
    + change 1%Z with (Z.of_nat 1). apply Nat2Z.inj_le, Ha.
    + apply Z.le_trans with (Z.of_nat (Z.to_nat w));
        [apply Nat2Z.inj_le, Hb | rewrite Z2Nat.id; lia].
Qed.

Lemma fold_vcard_line_chunks_witness :
  exists chunks,
    fold_vcard_line (lit "abcdefg") 3 [LF] = Ok (join ([LF] ++ [SPACE]) chunks) /\
    concat chunks = lit "abcdefg" /\
    len chunks = ((len (lit "abcdefg") + 3 - 1) / 3)%Z /\
    Forall (fun c => len c = 3%Z) (removelast chunks) /\
    (1 <= len (last chunks []) <= 3)%Z.
Proof.
  apply (fold_vcard_line_chunks (lit "abcdefg") 3 [LF]).
  - lia.
  - vm_compute. reflexivity.
Defined.

(** X3. For a width [w >= 1] and a line longer than [w], the folded line is
    longer than the line by the length of the line ending plus one, for each
    of its ceil(len/w) - 1 breaks. *)
Theorem fold_vcard_line_length (L : str) (w : Z) (t out : str) :
  (1 <= w)%Z -> (w < len L)%Z ->
  fold_vcard_line L w t = Ok out ->
  len out = (len L + (len t + 1) * ((len L + w - 1) / w - 1))%Z.
Proof.
  intros Hw Hlen H.
  rewrite fold_long in H by assumption. injection H as <-.
  pose proof (chunk_count_bounds (len L) w Hw ltac:(lia)) as [Hlo Hhi].
  pose proof (chunk_count_pos (len L) w Hw ltac:(lia)) as Hpos.
  assert (Hcount : Z.of_nat (chunk_count (len L) w) = ((len L + w - 1) / w)%Z).
  { unfold chunk_count.
    rewrite Z2Nat.id; [reflexivity | apply Z.div_pos; unfold len; lia]. }
  assert (Hne : chunk_list (chunk_count (len L) w) (Z.to_nat w) L <> []).
  { destruct (chunk_count (len L) w); [lia | discriminate]. }
  unfold len at 1. rewrite length_join by assumption.
  rewrite chunk_list_concat by (unfold len in *; nia).
  rewrite chunk_list_count, length_app. cbn [length].
  rewrite <- Hcount. unfold len in *.
  destruct (chunk_count (Z.of_nat (length L)) w) as [|k]; [lia|].
  rewrite Nat.sub_succ, Nat.sub_0_r.
  rewrite Nat2Z.inj_add, Nat2Z.inj_mul, Nat2Z.inj_add, Nat2Z.inj_succ.
  change (Z.of_nat 1) with 1%Z. nia.
Qed.

Lemma fold_vcard_line_length_witness :
  len (lit "abc" ++ [CR; LF] ++ lit " def" ++ [CR; LF] ++ lit " g")
  = (len (lit "abcdefg")
     + (len [CR; LF] + 1) * ((len (lit "abcdefg") + 3 - 1) / 3 - 1))%Z.
Proof.
  apply (fold_vcard_line_length (lit "abcdefg") 3 [CR; LF]).
  - lia.
  - vm_compute. reflexivity.
  - reflexivity.
Defined.

(** ** The Field Escaper: size, fixed points, concatenation *)

Lemma escape_char_length c :
  (1 <= length (escape_char c) <= 2)%nat.
Proof.
  unfold escape_char.
  destruct (c =? BACKSLASH)%N; [cbn; lia|].
  destruct (c =? SEMICOLON)%N; [cbn; lia|].
  destruct (c =? COMMA)%N; [cbn; lia|].
  destruct (c =? LF)%N; cbn; lia.
Qed.

Lemma escape_pass_length s :
  (length s <= length (escape_pass s) <= 2 * length s)%nat.
Proof.
  induction s as [| a | a b l IHl IHbl] using pair_induction.
  - cbn. lia.
  - cbn [escape_pass length]. pose proof (escape_char_length a). lia.
  - rewrite escape_pass_cons2.
    destruct ((a =? CR)%N && (b =? LF)%N); rewrite length_app.
    + cbn [length lit List.map list_ascii_of_string] in *. lia.
    + pose proof (escape_char_length a). cbn [length] in *. lia.
Qed.

(** X4. The escaped string is at least as long as the input and at most
    twice as long. *)
Theorem escape_vcard_value_length (s : str) :
  (len s <= len (escape_vcard_value (Some s)) <= 2 * len s)%Z.
Proof.
  rewrite escape_vcard_value_pass. unfold len.
  pose proof (escape_pass_length s). lia.
Qed.

Lemma escape_pass_no_newline s :
  ~ In LF s -> escape_pass s = flat_map escape_char s.
Proof.
  induction s as [| a | a b l IHl IHbl] using pair_induction; intros H.
  - reflexivity.
  - cbn. now rewrite app_nil_r.
  - rewrite escape_pass_cons2.
    assert (Hb : (b =? LF)%N = false).
    { apply N.eqb_neq. intros ->. apply H. right. now left. }
    rewrite Hb, andb_false_r, IHbl; [reflexivity|].
    intros Hin. apply H. now right.
Qed.

Lemma flat_map_escape_length s :
  ~ In LF s ->
  length (flat_map escape_char s)
  = (length s + length (filter (fun c => negb (plain_char c)) s))%nat.
Proof.
  induction s as [|c s IH]; intros H; [reflexivity|].
  cbn [flat_map filter]. rewrite length_app, IH
    by (intros Hin; apply H; now right).
  assert (Hc : c <> LF) by (intros ->; apply H; now left).
  apply N.eqb_neq in Hc.
  unfold plain_char, escape_char. rewrite Hc.
  destruct (c =? BACKSLASH)%N; [cbn; lia|].
  destruct (c =? SEMICOLON)%N; [cbn; lia|].
  destruct (c =? COMMA)%N; cbn; lia.
Qed.

Lemma filter_nil_forallb {A : Type} (f : A -> bool) l :
  filter (fun x => negb (f x)) l = [] -> forallb f l = true.
Proof.
  induction l as [|x l IH]; [reflexivity|].
  cbn [filter forallb]. destruct (f x); cbn [negb andb]; [exact IH | discriminate].
Qed.

(** X5. The escaper returns its input unchanged exactly when the input has
    no backslash, semicolon, comma or line feed. *)
Theorem escape_vcard_value_fixed_point (s : str) :
  escape_vcard_value (Some s) = s <-> forallb plain_char s = true.
Proof.
  split; [|apply escape_plain].
  rewrite escape_vcard_value_pass. intros E.
  assert (Hlf : ~ In LF s) by (rewrite <- E; apply escape_pass_no_lf).
  apply filter_nil_forallb. apply length_zero_iff_nil.
  pose proof (flat_map_escape_length s Hlf) as Hlen.
  rewrite <- (escape_pass_no_newline s Hlf), E in Hlen. lia.
Qed.

(** X6. Escaping distributes over concatenation, unless the first string
    ends with a carriage return and the second starts with a line feed. *)
Theorem escape_vcard_value_app (a b : str) :
  last a SPACE <> CR \/ hd SPACE b <> LF ->
  escape_vcard_value (Some (a ++ b))
  = escape_vcard_value (Some a) ++ escape_vcard_value (Some b).
Proof.
  rewrite !escape_vcard_value_pass.
  induction a as [| x | x y l IHl IHyl] using pair_induction; intros H.
  - reflexivity.
  - destruct b as [|d b]; [cbn [app]; now rewrite !app_nil_r|].
    change ([x] ++ d :: b) with (x :: d :: b).
    rewrite escape_pass_cons2. cbn [escape_pass].
    destruct (N.eqb_spec x CR) as [-> | Hx]; [|reflexivity].
    destruct (N.eqb_spec d LF) as [-> | Hd]; [|reflexivity].
    cbn [last hd] in H. destruct H; congruence.
  - change ((x :: y :: l) ++ b) with (x :: y :: (l ++ b)).
    rewrite !escape_pass_cons2.
    destruct ((x =? CR)%N && (y =? LF)%N).
    + rewrite <- app_assoc. f_equal. apply IHl.
      destruct l as [|z l]; [left; cbn; discriminate | exact H].
    + rewrite <- app_assoc. f_equal. apply IHyl. exact H.
Qed.

Lemma escape_vcard_value_app_witness :
  escape_vcard_value (Some (lit "a;" ++ lit "b,c"))
  = escape_vcard_value (Some (lit "a;")) ++ escape_vcard_value (Some (lit "b,c")).
Proof.
  apply (escape_vcard_value_app (lit "a;") (lit "b,c")).
  left. vm_compute. discriminate.
Defined.

Example escape_app_cr_lf :
  escape_vcard_value (Some ([CR] ++ [LF])) = lit "\n" /\
  escape_vcard_value (Some [CR]) ++ escape_vcard_value (Some [LF])
  = [CR] ++ lit "\n".
Proof. split; reflexivity. Qed.

(** ** Fingerprints *)

Lemma upper_hex_fixed s :
  forallb is_upper_hex s = true ->
  upper (re_sub_non_hex s) = s.
Proof.
  unfold upper, re_sub_non_hex.
  induction s as [|c s IH]; [reflexivity|].
  cbn [forallb]. intros H. apply andb_true_iff in H as [Hc Hs].
  assert (Hhex : is_hex c = true).
  { unfold is_hex, is_upper_hex in *. now rewrite Hc. }
  assert (Hup : upper_char c = c).
  { unfold upper_char, is_upper_hex in *.
    repeat match goal with
           | |- context [(?a <=? ?b)%N] => destruct (N.leb_spec a b)
           | H : context [(?a <=? ?b)%N] |- _ => destruct (N.leb_spec a b)
           end; cbn in *; try reflexivity; try discriminate; lia. }
  cbn [filter]. rewrite Hhex. cbn [List.map]. now rewrite Hup, (IH Hs).
Qed.

(** X7. Normalization is idempotent: a fingerprint it returns is returned
    unchanged when normalized again. *)
Theorem normalize_fingerprint_idempotent (fp s : str) :
  normalize_fingerprint fp = Ok s -> normalize_fingerprint s = Ok s.
Proof.
  intros H. destruct fp as [|c fp].
  - injection H as <-. reflexivity.
  - unfold normalize_fingerprint in H.
    set (u := upper (re_sub_non_hex (c :: fp))) in *.
    pose proof (upper_re_sub_hex (c :: fp)) as Hhex. fold u in Hhex.
    destruct (fullmatch_upper_hex u) eqn:Hfull; [|discriminate].
    cbn [negb] in H.
    destruct (existsb (Z.eqb (len u)) [8%Z; 16%Z; 40%Z]) eqn:Hlen; [|discriminate].
    cbn [negb] in H. injection H as <-.
    unfold normalize_fingerprint.
    destruct u as [|x u'] eqn:Eu; [discriminate|].
    rewrite (upper_hex_fixed (x :: u') Hhex), Hfull, Hlen. reflexivity.
Qed.

Lemma normalize_fingerprint_idempotent_witness :
  normalize_fingerprint (lit "ABCDEF0123456789ABCDEF0123456789ABCDEF01")
  = Ok (lit "ABCDEF0123456789ABCDEF0123456789ABCDEF01").
Proof.
  apply (normalize_fingerprint_idempotent sample_fingerprint).
  reflexivity.
Defined.

(** ** The Record Builder: how it ends *)

Section BuilderOutcome.

Variables full_name given surname preferred_name : str.
Variables email phone github city country note : option str.
Variables avatar_uri pgp_key_uri pgp_fingerprint : option str.
Variable line_ending : str.

(** X8. The builder fails in three ways only, tried in this order: a
    supplied avatar URI that is not an http(s) URL, a supplied key URI that
    is not an http(s) URL, and an empty line ending (an empty separator for
    [split]); in every other case, whatever the line ending and the fields
    hold, it returns a payload. *)
Theorem build_vcard_outcome :
  match
    build_vcard full_name given surname preferred_name email phone github city
      country note avatar_uri pgp_key_uri pgp_fingerprint line_ending
  with
  | Err e =>
      e = (if negb (uri_accepted avatar_uri) then ValueError Msg_avatar_not_http
           else if negb (uri_accepted pgp_key_uri)
                then ValueError Msg_pgp_key_not_http
                else ValueError Msg_empty_separator) /\
      (uri_accepted avatar_uri = false \/ uri_accepted pgp_key_uri = false
       \/ line_ending = [])
  | Ok out =>
      uri_accepted avatar_uri = true /\ uri_accepted pgp_key_uri = true /\
      line_ending <> []
  end.
Proof.
  rewrite build_vcard_unfold.
  destruct (uri_accepted avatar_uri); cbn [negb]; [|split; [reflexivity | now left]].
  destruct (uri_accepted pgp_key_uri); cbn [negb];
    [|split; [reflexivity | right; now left]].
  destruct line_ending as [|c t].
  - cbn [split bind]. split; [reflexivity | right; now right].
  - unfold split. cbn [bind]. rewrite for_each_fold. cbn [bind].
    repeat split. discriminate.
Qed.

End BuilderOutcome.

Example build_sample_empty_line_ending :
  build_sample (lit "alice") (lit "https://x.com/a.jpg") []
  = Err (ValueError Msg_empty_separator).
Proof. reflexivity. Qed.

(** ** The payload: unfolding, and the choice of the line ending *)

Lemma replace_go_free_prefix t y rest :
  is_terminator t -> contains t y = false ->
  replace_go (t ++ [SPACE]) [] 0 (y ++ t ++ rest)
  = y ++ replace_go (t ++ [SPACE]) [] 0 (t ++ rest).
Proof.
  intros Ht. induction y as [|c y IH]; intros Hy; [reflexivity|].
  pose proof (no_false_start t c y rest Ht Hy) as Hs.
  apply contains_cons_false in Hy as [_ Hy].
  change ((c :: y) ++ t ++ rest) with (c :: (y ++ t ++ rest)) in *.
  rewrite replace_go_miss.
  - now rewrite (IH Hy).
  - destruct (startswith (t ++ [SPACE]) (c :: y ++ t ++ rest)) eqn:E;
      [|reflexivity].
    apply startswith_app_l in E. congruence.
Qed.

Lemma replace_go_terminator t rest :
  is_terminator t -> startswith [SPACE] rest = false ->
  replace_go (t ++ [SPACE]) [] 0 (t ++ rest)
  = t ++ replace_go (t ++ [SPACE]) [] 0 rest.
Proof.
  intros [-> | ->] H.
  - change (([CR; LF] ++ [SPACE])) with [CR; LF; SPACE].
    change ([CR; LF] ++ rest) with (CR :: LF :: rest).
    rewrite replace_go_miss.
    + rewrite replace_go_miss; reflexivity.
    + cbn [startswith] in *. now rewrite H.
  - change (([LF] ++ [SPACE])) with [LF; SPACE].
    change ([LF] ++ rest) with (LF :: rest).
    rewrite replace_go_miss; [reflexivity|].
    cbn [startswith] in *. now rewrite H.
Qed.

Lemma replace_go_chunks t chunks rest :
  is_terminator t -> chunks <> [] ->
  Forall (fun y => contains t y = false) chunks ->
  replace_go (t ++ [SPACE]) [] 0 (join (t ++ [SPACE]) chunks ++ t ++ rest)
  = concat chunks ++ replace_go (t ++ [SPACE]) [] 0 (t ++ rest).
Proof.
  intros Ht Hne Hall. induction Hall as [|y ys Hy Hall IH]; [congruence|].
  destruct ys as [|z ys].
  - cbn [join concat]. rewrite app_nil_r. now apply replace_go_free_prefix.
  - change (join (t ++ [SPACE]) (y :: z :: ys))
      with (y ++ (t ++ [SPACE]) ++ join (t ++ [SPACE]) (z :: ys)).
    assert (E : (y ++ (t ++ [SPACE]) ++ join (t ++ [SPACE]) (z :: ys)) ++ t ++ rest
                = y ++ (t ++ [SPACE])
                    ++ (join (t ++ [SPACE]) (z :: ys) ++ t ++ rest))
      by (rewrite <- !app_assoc; reflexivity).
    rewrite E. rewrite (replace_go_piece t y _ Ht Hy).
    rewrite IH by discriminate.
    cbn [concat]. rewrite <- !app_assoc. reflexivity.
Qed.

(** A folded line, as the chunks of the line joined by the separator. *)
Lemma folded_chunks t L :
  exists chunks,
    chunks <> [] /\
    join t (physical_lines L) = join (t ++ [SPACE]) chunks /\
    concat chunks = L /\
    (contains t L = false -> Forall (fun y => contains t y = false) chunks).
Proof.
  unfold physical_lines.
  destruct (Z.leb_spec (len L) 75) as [H | H].
  - exists [L]. split; [discriminate|]. split; [reflexivity|].
    split; [apply app_nil_r | intros HL; now constructor].
  - exists (chunk_list (chunk_count (len L) 75) 75 L).
    pose proof (chunk_count_pos (len L) 75 ltac:(lia) ltac:(lia)) as Hpos.
    pose proof (chunk_count_covers (len L) 75 ltac:(lia) ltac:(unfold len; lia)).
    split; [destruct (chunk_count (len L) 75); [lia | discriminate]|].
    split.
    { destruct (chunk_list (chunk_count (len L) 75) 75 L); [reflexivity|].
      now rewrite join_sep_space. }
    split; [apply chunk_list_concat; unfold len in *; lia|].
    apply chunk_list_contains.
Qed.

Lemma folded_head t L rest :
  starts_with_non_space L = true ->
  startswith [SPACE] (join t (physical_lines L) ++ rest) = false.
Proof.
  destruct L as [|c r]; [discriminate|]. cbn [starts_with_non_space]. intros Hc.
  assert (Hhead : forall tail, startswith [SPACE] (c :: tail) = false).
  { intros tail. cbn [startswith]. rewrite andb_true_r.
    apply negb_true_iff in Hc. now rewrite N.eqb_sym. }
  unfold physical_lines.
  destruct (Z.leb_spec (len (c :: r)) 75) as [H | H].
  - cbn [join app]. apply Hhead.
  - pose proof (chunk_count_pos (len (c :: r)) 75 ltac:(lia) ltac:(lia)) as Hpos.
    destruct (chunk_count (len (c :: r)) 75) as [|k]; [lia|].
    change (chunk_list (S k) 75 (c :: r))
      with ((c :: firstn 74 r) :: chunk_list k 75 (skipn 75 (c :: r))).
    cbv beta iota. rewrite join_cons_head. cbn [app]. apply Hhead.
Qed.

Lemma join_terminated t xs :
  xs <> [] -> join t xs ++ t = flat_map (fun x => x ++ t) xs.
Proof.
  induction xs as [|x xs IH]; [congruence|]. intros _.
  destruct xs as [|y xs]; [cbn; now rewrite app_nil_r|].
  change (join t (x :: y :: xs)) with (x ++ t ++ join t (y :: xs)).
  change (flat_map (fun x => x ++ t) (x :: y :: xs))
    with ((x ++ t) ++ flat_map (fun x => x ++ t) (y :: xs)).
  rewrite <- IH by discriminate.
  rewrite <- !app_assoc. reflexivity.
Qed.

Lemma unfold_lines t lines :
  is_terminator t ->
  Forall (fun L => contains [LF] L = false) lines ->
  Forall (fun L => starts_with_non_space L = true) lines ->
  replace_go (t ++ [SPACE]) [] 0
    (flat_map (fun L => join t (physical_lines L) ++ t) lines)
  = flat_map (fun L => L ++ t) lines.
Proof.
  intros Ht Hlf Hsp. induction lines as [|L lines IH]; [reflexivity|].
  apply Forall_cons_iff in Hlf as [HL Hlf].
  apply Forall_cons_iff in Hsp as [_ Hsp].
  cbn [flat_map].
  destruct (folded_chunks t L) as (chunks & Hne & E & Hcat & Hfree).
  rewrite E, <- app_assoc.
  rewrite replace_go_chunks;
    [| assumption | assumption | apply Hfree; now apply terminator_free].
  rewrite Hcat, replace_go_terminator, (IH Hlf Hsp), <- app_assoc;
    [reflexivity | assumption |].
  destruct lines as [|L' lines]; [reflexivity|].
  cbn [flat_map]. rewrite <- app_assoc. apply folded_head.
  now apply Forall_cons_iff in Hsp as [Hsp _].
Qed.

Ltac non_space_line :=
  cbv zeta; repeat constructor; reflexivity.

Lemma record_lines_start
  full_name given surname preferred_name
  email phone github city country note avatar_uri pgp_key_uri pgp_fingerprint :
  Forall (fun L => starts_with_non_space L = true)
    (record_lines full_name given surname preferred_name email phone github
       city country note avatar_uri pgp_key_uri pgp_fingerprint).
Proof.
  unfold record_lines, identity_block, phone_block, email_block, link_block,
    address_block, note_block, avatar_block, key_uri_block,
    key_fingerprint_block, nickname_block, optional_field.
  repeat (apply Forall_app; split);
    repeat match goal with
           | |- Forall _ (if ?c then _ else _) => destruct c
           end;
    non_space_line.
Qed.

Lemma map_join_terminated t (f : str -> str) lines :
  lines <> [] ->
  join t (List.map f lines) ++ t = flat_map (fun L => f L ++ t) lines.
Proof.
  intros Hne. rewrite join_terminated by (destruct lines; [congruence | discriminate]).
  induction lines as [|L lines IH]; [reflexivity|].
  cbn [List.map flat_map]. destruct lines as [|L' lines]; [reflexivity|].
  now rewrite IH by discriminate.
Qed.

Lemma record_lines_nonempty
  full_name given surname preferred_name
  email phone github city country note avatar_uri pgp_key_uri pgp_fingerprint :
  record_lines full_name given surname preferred_name email phone github
    city country note avatar_uri pgp_key_uri pgp_fingerprint <> [].
Proof. discriminate. Qed.

Section PayloadRoundTrip.

Variables full_name given surname preferred_name : str.
Variables email phone github city country note : option str.
Variables avatar_uri pgp_key_uri pgp_fingerprint : option str.

(** X9. Unfolding the payload gives back the record: when the builder
    succeeds with a terminator CRLF or LF, removing every terminator that is
    followed by a space leaves the logical lines of the record, each
    followed by the terminator, and splitting that text at the terminator
    returns the lines (and the empty piece after the last terminator). *)
Theorem build_vcard_unfolds line_ending out :
  is_terminator line_ending ->
  build_vcard full_name given surname preferred_name email phone github city
    country note avatar_uri pgp_key_uri pgp_fingerprint line_ending = Ok out ->
  let lines :=
    record_lines full_name given surname preferred_name email phone github
      city country note avatar_uri pgp_key_uri pgp_fingerprint in
  replace (line_ending ++ [SPACE]) [] out = join line_ending lines ++ line_ending /\
  split line_ending (replace (line_ending ++ [SPACE]) [] out)
  = Ok (lines ++ [[]]).
Proof.
  intros Ht H lines.
  apply build_vcard_inv in H as (_ & _ & ->); [|assumption].
  fold lines.
  assert (Hne : lines <> []) by apply record_lines_nonempty.
  assert (E : replace (line_ending ++ [SPACE]) []
                (join line_ending
                   (List.map (fun L => join line_ending (physical_lines L)) lines)
                 ++ line_ending)
              = join line_ending lines ++ line_ending).
  { rewrite replace_nonempty
      by (intros E; now apply app_eq_nil in E as [_ E]).
    rewrite map_join_terminated by assumption.
    rewrite unfold_lines;
      [| assumption | apply record_lines_no_lf | apply record_lines_start].
    symmetry. now apply join_terminated. }
  split; [exact E|]. rewrite E.
  replace (join line_ending lines ++ line_ending)
    with (join line_ending (lines ++ [[]]))
    by (rewrite join_snoc by assumption; now rewrite app_nil_r).
  apply split_join; [assumption | |].
  - intros E'. now apply app_eq_nil in E' as [_ E'].
  - apply Forall_app. split.
    + eapply Forall_impl; [|apply record_lines_no_lf].
      intros L. now apply terminator_free.
    + constructor; [|constructor].
      apply contains_nil. now apply is_terminator_nonempty.
Qed.

End PayloadRoundTrip.

Lemma build_vcard_unfolds_witness :
  exists out,
    build_sample long_handle (lit "https://x.com/a.jpg") [CR; LF] = Ok out /\
    let lines :=
      record_lines (lit "Alice Example") (lit "Alice") (lit "Example") []
        (Some (lit "alice@example.com")) (Some []) (Some long_handle)
        (Some []) (Some []) (Some []) (Some (lit "https://x.com/a.jpg"))
        (Some []) (Some []) in
    replace ([CR; LF] ++ [SPACE]) [] out = join [CR; LF] lines ++ [CR; LF] /\
    split [CR; LF] (replace ([CR; LF] ++ [SPACE]) [] out) = Ok (lines ++ [[]]).
Proof.
  eexists. split; [vm_compute; reflexivity|].
  apply (build_vcard_unfolds (lit "Alice Example") (lit "Alice")
           (lit "Example") [] (Some (lit "alice@example.com")) (Some [])
           (Some long_handle) (Some []) (Some []) (Some [])
           (Some (lit "https://x.com/a.jpg")) (Some []) (Some []) [CR; LF]).
  - left; reflexivity.
  - vm_compute; reflexivity.
Defined.

Lemma crlf_to_lf_piece y rest :
  contains [CR; LF] y = false ->
  replace_go [CR; LF] [LF] 0 (y ++ [CR; LF] ++ rest)
  = y ++ [LF] ++ replace_go [CR; LF] [LF] 0 rest.
Proof.
  induction y as [|c y IH]; intros Hy.
  - change ([] ++ [CR; LF] ++ rest) with ([CR; LF] ++ rest).
    rewrite replace_go_hit; [reflexivity | discriminate | reflexivity].
  - pose proof (no_false_start [CR; LF] c y rest (or_introl eq_refl) Hy) as Hs.
    apply contains_cons_false in Hy as [_ Hy].
    change ((c :: y) ++ [CR; LF] ++ rest) with (c :: (y ++ [CR; LF] ++ rest)) in *.
    rewrite replace_go_miss by exact Hs. now rewrite (IH Hy).
Qed.

Lemma crlf_to_lf_segments P :
  Forall (fun seg => contains [CR; LF] seg = false) P ->
  replace_go [CR; LF] [LF] 0 (flat_map (fun seg => seg ++ [CR; LF]) P)
  = flat_map (fun seg => seg ++ [LF]) P.
Proof.
  induction 1 as [|seg P Hseg _ IH]; [reflexivity|].
  cbn [flat_map]. rewrite <- !app_assoc.
  rewrite crlf_to_lf_piece by assumption. now rewrite IH.
Qed.

Lemma replace_every_lf_free new y :
  contains [LF] y = false -> EscaperSpec.replace_every LF new y = y.
Proof.
  unfold EscaperSpec.replace_every. induction y as [|c y IH]; [reflexivity|].
  rewrite contains_lf_cons. intros H. apply orb_false_iff in H as [Hc Hy].
  cbn [flat_map]. rewrite Hc, (IH Hy). reflexivity.
Qed.

Lemma lf_to_crlf_segments P :
  Forall (fun seg => contains [LF] seg = false) P ->
  EscaperSpec.replace_every LF [CR; LF] (flat_map (fun seg => seg ++ [LF]) P)
  = flat_map (fun seg => seg ++ [CR; LF]) P.
Proof.
  induction 1 as [|seg P Hseg _ IH]; [reflexivity|].
  cbn [flat_map].
  assert (Happ : forall a b,
             EscaperSpec.replace_every LF [CR; LF] (a ++ b)
             = EscaperSpec.replace_every LF [CR; LF] a
               ++ EscaperSpec.replace_every LF [CR; LF] b)
    by (intros a b; apply flat_map_app).
  rewrite !Happ, (replace_every_lf_free [CR; LF] seg Hseg), IH.
  change (EscaperSpec.replace_every LF [CR; LF] [LF]) with [CR; LF].
  rewrite <- !app_assoc. reflexivity.
Qed.

Section LineEndingChoice.

Variables full_name given surname preferred_name : str.
Variables email phone github city country note : option str.
Variables avatar_uri pgp_key_uri pgp_fingerprint : option str.

Lemma payload_segments t :
  is_terminator t ->
  let P := concat (List.map physical_lines
                     (record_lines full_name given surname preferred_name
                        email phone github city country note avatar_uri
                        pgp_key_uri pgp_fingerprint)) in
  join t (List.map (fun L => join t (physical_lines L))
            (record_lines full_name given surname preferred_name email phone
               github city country note avatar_uri pgp_key_uri pgp_fingerprint))
    ++ t
  = flat_map (fun seg => seg ++ t) P /\
  Forall (fun seg => contains [LF] seg = false) P.
Proof.
  intros Ht P.
  assert (Hne : P <> []).
  { apply concat_nonempty; [discriminate|].
    apply Forall_map, Forall_forall. intros L _. apply physical_lines_nonempty. }
  split.
  - rewrite <- map_map with (g := join t).
    rewrite join_concat
      by (apply Forall_map, Forall_forall; intros L _; apply physical_lines_nonempty).
    now apply join_terminated.
  - apply Forall_concat, Forall_map.
    eapply Forall_impl; [|apply record_lines_no_lf].
    intros L HL. apply (physical_lines_free [LF] L); [now right | exact HL].
Qed.

(** X10. The choice of the line ending changes the terminators and nothing
    else: the builder succeeds with CRLF exactly when it succeeds with LF,
    the LF payload is the CRLF payload with every CRLF replaced by LF, and
    the CRLF payload is the LF payload with every LF replaced by CRLF. *)
Theorem build_vcard_line_ending_choice :
  match
    build_vcard full_name given surname preferred_name email phone github city
      country note avatar_uri pgp_key_uri pgp_fingerprint [CR; LF],
    build_vcard full_name given surname preferred_name email phone github city
      country note avatar_uri pgp_key_uri pgp_fingerprint [LF]
  with
  | Ok out_crlf, Ok out_lf =>
      replace [CR; LF] [LF] out_crlf = out_lf /\
      replace [LF] [CR; LF] out_lf = out_crlf
  | Err e1, Err e2 => e1 = e2
  | _, _ => False
  end.
Proof.
  destruct (uri_accepted avatar_uri) eqn:Ha.
  - destruct (uri_accepted pgp_key_uri) eqn:Hk.
    + rewrite !build_vcard_good by
        (assumption || (left; reflexivity) || (right; reflexivity)).
      destruct (payload_segments [CR; LF] (or_introl eq_refl)) as [E1 Hfree].
      destruct (payload_segments [LF] (or_intror eq_refl)) as [E2 _].
      cbv zeta in *. rewrite E1, E2. split.
      * apply crlf_to_lf_segments.
        eapply Forall_impl; [|exact Hfree].
        intros seg. apply terminator_free. now left.
      * rewrite replace_char. now apply lf_to_crlf_segments.
    + now rewrite !build_vcard_bad_key.
  - now rewrite !build_vcard_bad_avatar.
Qed.

End LineEndingChoice.

(** ** [main]: what reaches the builder and the QR generator *)

Lemma main_uri_accepted (uri : str) :
  nonempty uri && negb (is_http_url uri) = false ->
  uri_accepted (Some uri) = true.
Proof.
  unfold uri_accepted. destruct uri as [|c r]; [reflexivity|].
  cbn [nonempty andb truthy falsy negb orb val].
  now intros ->%negb_false_iff.
Qed.

Lemma main_line_ending_terminator (choice : Args.line_ending_choice) :
  is_terminator match choice with
                | Args.crlf => [CR; LF]
                | Args.lf => [LF]
                end.
Proof. destruct choice; [now left | now right]. Qed.

(** The fingerprint step of [main]: what it prints and hands on. *)
Lemma main_fingerprint_step (fp_arg : str) :
  match
    (if nonempty fp_arg then
       match normalize_fingerprint fp_arg with
       | Ok normalized_fp =>
           if (len normalized_fp =? 8)%Z
           then ([Warning_short_keyid], Ok normalized_fp)
           else if (len normalized_fp =? 16)%Z
                then ([Note_long_keyid], Ok normalized_fp)
                else ([], Ok normalized_fp)
       | Err e => ([Error_invalid_fingerprint e], Err e)
       end
     else ([], Ok []))
  with
  | (pr, Ok fp) =>
      normalize_fingerprint fp_arg = Ok fp /\
      pr = (if (len fp =? 8)%Z then [Warning_short_keyid]
            else if (len fp =? 16)%Z then [Note_long_keyid] else [])
  | (pr, Err e) => exists e', pr = [Error_invalid_fingerprint e']
  end.
Proof.
  destruct fp_arg as [|c r]; [now split|].
  cbn [nonempty].
  destruct (normalize_fingerprint (c :: r)) as [fp | e]; [|now exists e].
  destruct (len fp =? 8)%Z eqn:E8; [now rewrite E8|].
  destruct (len fp =? 16)%Z eqn:E16; now rewrite E8, ?E16.
Qed.

(** What holds when [main] reaches the QR generator. *)
Lemma main_generate_inv args printed vcard :
  main args = (printed, GenerateQr vcard) ->
  exists fp warned,
    normalize_fingerprint (Args.pgp_fingerprint args) = Ok fp /\
    build_vcard
      (main_fn args (fst (main_given_surname args)) (snd (main_given_surname args)))
      (fst (main_given_surname args)) (snd (main_given_surname args))
      (strip (Args.preferred_name args))
      (Some (Args.email args)) (Some (Args.phone args))
      (Some (Args.github args)) (Some (Args.city args))
      (Some (Args.country args)) (Some (Args.note args))
      (Some (Args.avatar args)) (Some (Args.pgp_key_uri args)) (Some fp)
      (match Args.line_ending args with
       | Args.crlf => [CR; LF]
       | Args.lf => [LF]
       end) = Ok vcard /\
    approx_size_warn_and_check vcard = (warned, Ok tt) /\
    printed =
      (if (len fp =? 8)%Z then [Warning_short_keyid]
       else if (len fp =? 16)%Z then [Note_long_keyid] else []) ++ warned.
Proof.
  unfold main. intros H.
  repeat match type of H with
         | (if ?c then _ else _) = _ => destruct c; [discriminate|]
         end.
  pose proof (main_fingerprint_step (Args.pgp_fingerprint args)) as Hfp.
  match type of H with
  | (match ?x with _ => _ end) = _ => destruct x as [pr [fp | e]]
  end; [|discriminate].
  destruct Hfp as [Hnorm ->].
  exists fp. destruct (main_given_surname args) as [g sn]. cbn [fst snd].
  match type of H with
  | (match ?x with _ => _ end) = _ => destruct x as [v | e] eqn:Eb
  end; [|discriminate].
  destruct (approx_size_warn_and_check v) as [w [[] | e]] eqn:Ea; [|discriminate].
  exists w. injection H as <- <-. repeat split; assumption.
Qed.

Lemma approx_size_printed s line :
  In line (fst (approx_size_warn_and_check s)) ->
  exists n, line = Warning_large_payload n.
Proof.
  unfold approx_size_warn_and_check.
  destruct (encode_utf8 s) as [bytes | e]; [|intros []].
  destruct (WARN_QR_BYTES <? len bytes)%Z, (MAX_QR_BYTES <? len bytes)%Z;
    cbn [fst]; intros Hin; try destruct Hin as [<- | []]; try destruct Hin;
    now eexists.
Qed.

Lemma keyid_printed (fp : str) line :
  In line (if (len fp =? 8)%Z then [Warning_short_keyid]
           else if (len fp =? 16)%Z then [Note_long_keyid] else []) ->
  line = Warning_short_keyid \/ line = Note_long_keyid.
Proof.
  destruct (len fp =? 8)%Z; [intros [<- | []]; now left|].
  destruct (len fp =? 16)%Z; [intros [<- | []]; now right | intros []].
Qed.

(** X11. [main] never takes its build-failure exit: the avatar and key URIs
    are checked before the builder runs and the line ending is CRLF or LF,
    so the builder cannot fail; no run ends with exit code 6 and none prints
    the build-failure line. *)
Theorem main_build_never_fails (args : Args.t) :
  snd (main args) <> Exit 6 /\
  forall e, ~ In (Failed_to_build e) (fst (main args)).
Proof.
  unfold main.
  destruct (negb _); [split; [discriminate | intros e [H | []]; discriminate]|].
  destruct (nonempty (Args.avatar args) && negb (is_http_url (Args.avatar args)))
    eqn:Ha; [split; [discriminate | intros e [H | []]; discriminate]|].
  destruct (nonempty (Args.pgp_key_uri args)
            && negb (is_http_url (Args.pgp_key_uri args)))
    eqn:Hk; [split; [discriminate | intros e [H | []]; discriminate]|].
  pose proof (main_fingerprint_step (Args.pgp_fingerprint args)) as Hfp.
  match goal with
  | |- context [match ?x with (_, _) => _ end] => destruct x as [pr [fp | e]]
  end.
  2: { destruct Hfp as [e' ->]. split; [discriminate|].
       intros e0 [H | []]. discriminate. }
  destruct Hfp as [_ ->].
  destruct (main_given_surname args) as [g sn].
  rewrite (build_vcard_good _ g sn _ _ _ _ _ _ _ _ _ (Some fp) _
             (main_line_ending_terminator (Args.line_ending args))
             (main_uri_accepted _ Ha) (main_uri_accepted _ Hk)).
  match goal with
  | |- context [approx_size_warn_and_check ?v] =>
      pose proof (approx_size_printed v) as Hw;
      destruct (approx_size_warn_and_check v) as [w [u | e]]
  end; cbn [fst snd] in *; (split; [discriminate|]);
    intros e0 Hin; rewrite ?in_app_iff in Hin.
  - destruct Hin as [Hin | Hin].
    + apply keyid_printed in Hin as [Hin | Hin]; discriminate.
    + apply Hw in Hin as [n Hin]. discriminate.
  - destruct Hin as [Hin | [Hin | Hin]].
    + apply keyid_printed in Hin as [Hin | Hin]; discriminate.
    + apply Hw in Hin as [n Hin]. discriminate.
    + cbn in Hin. intuition discriminate.
Qed.

Example main_bad_avatar_exit :
  main {| Args.name := lit "Ada"; Args.given := []; Args.surname := [];
          Args.preferred_name := []; Args.email := []; Args.phone := [];
          Args.github := []; Args.city := []; Args.country := [];
          Args.note := []; Args.avatar := lit "ftp://x.com/a.jpg";
          Args.pgp_key_uri := []; Args.pgp_fingerprint := [];
          Args.line_ending := Args.lf |}
  = ([Error_avatar_not_http], Exit 3).
Proof. reflexivity. Qed.



(** X12. When [main] reaches the QR generator, the payload it hands on has
    a UTF-8 encoding of at most 2950 bytes, and the size warning was printed
    exactly when that encoding has more than 2000 bytes. *)
Theorem main_payload_within_limit args printed vcard :
  main args = (printed, GenerateQr vcard) ->
  exists bytes,
    encode_utf8 vcard = Ok bytes /\
    (len bytes <= 2950)%Z /\
    (In (Warning_large_payload (len bytes)) printed <-> (2000 < len bytes)%Z).
Proof.
  intros H.
  destruct (main_generate_inv args printed vcard H)
    as (fp & warned & _ & _ & Ha & ->).
  unfold approx_size_warn_and_check, WARN_QR_BYTES, MAX_QR_BYTES in Ha.
  destruct (encode_utf8 vcard) as [bytes | e]; [|discriminate].
  exists bytes. split; [reflexivity|].
  destruct (Z.ltb_spec 2950 (len bytes)); [discriminate|].
  split; [assumption|].
  injection Ha as <-. rewrite in_app_iff.
  destruct (Z.ltb_spec 2000 (len bytes)) as [Hw | Hw].
  - split; [intros _; assumption | intros _; right; now left].
  - split; [|lia]. intros [Hin | []].
    apply keyid_printed in Hin as [Hin | Hin]; discriminate.
Qed.

Lemma main_payload_within_limit_witness :
  exists printed vcard bytes,
    main alice_args = (printed, GenerateQr vcard) /\
    encode_utf8 vcard = Ok bytes /\
    (len bytes <= 2950)%Z /\
    (In (Warning_large_payload (len bytes)) printed <-> (2000 < len bytes)%Z).
Proof.
  eexists _, _.
  assert (H : main alice_args = (_, GenerateQr _)) by (vm_compute; reflexivity).
  destruct (main_payload_within_limit alice_args _ _ H) as (bytes & Hb).
  exists bytes. split; [exact H | exact Hb].
Defined.



(** ** [main]: the names *)

Lemma split_ws_tokens_nonempty s : Forall (fun tok => tok <> []) (split_ws s).
Proof.
  induction s as [|c t IH]; [constructor|].
  rewrite split_ws_cons. destruct (isspace c); [exact IH|].
  destruct t as [|d t']; [constructor; [discriminate | constructor]|].
  destruct (isspace d); [constructor; [discriminate | exact IH]|].
  destruct (split_ws (d :: t')) as [|w ws]; [constructor; [discriminate | constructor]|].
  apply Forall_cons_iff in IH as [_ IH]. constructor; [discriminate | exact IH].
Qed.

Lemma join_nonempty sep parts :
  parts <> [] -> Forall (fun p => p <> []) parts -> join sep parts <> [].
Proof.
  intros Hne Hall. destruct Hall as [|p parts Hp _]; [congruence|].
  destruct p as [|c p]; [congruence|].
  destruct parts; cbn; discriminate.
Qed.

Lemma split_ws_nil_stripped x : stripped x -> split_ws x = [] -> x = [].
Proof.
  intros Sx H. apply split_ws_nil in H.
  destruct x as [|c r]; [reflexivity|].
  apply stripped_head in Sx. apply Forall_cons_iff in H as [H _]. congruence.
Qed.

(** X14. The formatted name is not empty when the name, the given name or
    the surname has a character that is not white space, and the preferred
    name is absent or has such a character. *)
Theorem main_fn_nonempty (args : Args.t) :
  strip (Args.name args) <> [] \/ strip (Args.given args) <> []
  \/ strip (Args.surname args) <> [] ->
  Args.preferred_name args = [] \/ strip (Args.preferred_name args) <> [] ->
  main_fn args (fst (main_given_surname args)) (snd (main_given_surname args))
  <> [].
Proof.
  intros Hnames Hpref. unfold main_fn.
  destruct (strip (Args.name args)) as [|c r] eqn:Hn; [|discriminate].
  cbn [nonempty negb].
  destruct Hnames as [Hname | Hgs]; [congruence|].
  assert (Hgs' : strip (Args.given args) <> [] \/ strip (Args.surname args) <> [])
    by exact Hgs.
  rewrite (main_given_surname_explicit args Hgs'). cbn [fst snd].
  destruct Hpref as [-> | Hp].
  - cbn [nonempty].
    rewrite strip_join_names by apply strip_stripped.
    apply join_nonempty.
    + cbn [filter].
      destruct Hgs' as [H | H]; apply nonempty_true in H; rewrite H;
        [discriminate | destruct (nonempty (strip (Args.given args))); discriminate].
    + apply Forall_forall. intros p Hp. apply filter_In in Hp as [_ Hp].
      now apply nonempty_true.
  - destruct (nonempty (Args.preferred_name args)) eqn:Hpn.
    + destruct (strip (Args.preferred_name args)); [congruence|].
      destruct (nonempty (strip (Args.surname args))); discriminate.
    + apply nonempty_false in Hpn. rewrite Hpn in Hp. now cbn in Hp.
Qed.

Lemma main_fn_nonempty_witness :
  main_fn sample_args (fst (main_given_surname sample_args))
    (snd (main_given_surname sample_args)) <> [].
Proof.
  apply (main_fn_nonempty sample_args).
  - left. vm_compute. discriminate.
  - left. reflexivity.
Defined.

(** A name of white space only passes the name check of [main] and gives a
    record with an empty formatted name. *)
Example main_blank_name :
  main {| Args.name := lit " "; Args.given := []; Args.surname := [];
          Args.preferred_name := []; Args.email := []; Args.phone := [];
          Args.github := []; Args.city := []; Args.country := [];
          Args.note := []; Args.avatar := []; Args.pgp_key_uri := [];
          Args.pgp_fingerprint := []; Args.line_ending := Args.lf |}
  = ([], GenerateQr
           (join [LF] [ lit "BEGIN:VCARD"; lit "VERSION:3.0"; lit "FN:";
                        lit "N:;;;;"; lit "END:VCARD" ] ++ [LF])).
Proof. vm_compute. reflexivity. Qed.

(** X15. When neither a given name nor a surname is supplied, the given
    name and surname derived from the full name, joined by a space, are the
    tokens of the full name joined by single spaces: nothing of the name is
    lost but the amount of white space between its words. *)
Theorem main_given_surname_rejoin (args : Args.t) :
  strip (Args.given args) = [] -> strip (Args.surname args) = [] ->
  join (lit " ")
    (filter nonempty
       [fst (main_given_surname args); snd (main_given_surname args)])
  = join (lit " ") (split_ws (strip (Args.name args))).
Proof.
  intros Hg Hs. rewrite (main_given_surname_split args Hg Hs). cbv zeta.
  pose proof (split_ws_tokens_nonempty (strip (Args.name args))) as Htok.
  destruct (split_ws (strip (Args.name args))) as [|t1 [|t2 ts]] eqn:E.
  - change ((2 <=? len (@nil str))%Z) with false. cbn [fst snd].
    rewrite (split_ws_nil_stripped _ (strip_stripped _) E). reflexivity.
  - change ((2 <=? len [t1])%Z) with false. cbn [fst snd].
    rewrite <- strip_idem, (strip_single _ _ E).
    apply Forall_cons_iff in Htok as [Ht1 _].
    apply nonempty_true in Ht1. cbn [filter nonempty]. now rewrite Ht1.
  - assert (Hlen : (2 <=? len (t1 :: t2 :: ts))%Z = true).
    { apply Z.leb_le. unfold len. cbn [length]. lia. }
    rewrite Hlen. cbn [fst snd].
    set (tokens := t1 :: t2 :: ts) in *.
    assert (Hne : removelast tokens <> []) by (unfold tokens; cbn; discriminate).
    assert (Hinit : Forall (fun tok => tok <> []) (removelast tokens)).
    { apply Forall_forall. intros x Hx. apply (proj1 (Forall_forall _ _) Htok).
      rewrite (app_removelast_last [] (l := tokens)) by discriminate.
      apply in_or_app. now left. }
    assert (Hlast : last tokens [] <> []).
    { apply (proj1 (Forall_forall _ _) Htok).
      rewrite (app_removelast_last [] (l := tokens)) at 2 by discriminate.
      apply in_or_app. right. now left. }
    pose proof (join_nonempty (lit " ") _ Hne Hinit) as Hgiven.
    apply nonempty_true in Hgiven, Hlast.
    cbn [filter]. rewrite Hgiven, Hlast. cbn [join].
    rewrite <- join_snoc by assumption.
    now rewrite <- app_removelast_last by discriminate.
Qed.

Lemma main_given_surname_rejoin_witness :
  join (lit " ")
    (filter nonempty
       [fst (main_given_surname sample_args);
        snd (main_given_surname sample_args)])
  = join (lit " ") (split_ws (strip (Args.name sample_args))).
Proof.
  apply (main_given_surname_rejoin sample_args); reflexivity.
Defined.

Example main_given_surname_three_tokens :
  main_given_surname
    {| Args.name := lit "  Ada   King  Lovelace "; Args.given := [];
       Args.surname := []; Args.preferred_name := []; Args.email := [];
       Args.phone := []; Args.github := []; Args.city := [];
       Args.country := []; Args.note := []; Args.avatar := [];
       Args.pgp_key_uri := []; Args.pgp_fingerprint := [];
       Args.line_ending := Args.crlf |}
  = (lit "Ada King", lit "Lovelace").
Proof. reflexivity. Qed.

(** ** The Size Validator and the number of characters *)

Lemma utf8_of_char_length c bs :
  utf8_of_char c = Some bs -> (1 <= length bs <= 4)%nat.
Proof.
  unfold utf8_of_char.
  destruct (c <? 128)%N; [intros [= <-]; cbn; lia|].
  destruct (c <? 2048)%N; [intros [= <-]; cbn; lia|].
  destruct ((55296 <=? c)%N && (c <=? 57343)%N); [discriminate|].
  destruct (c <? 65536)%N; intros [= <-]; cbn; lia.
Qed.

Lemma encode_utf8_from_length position s bytes :
  encode_utf8_from position s = Ok bytes ->
  (length s <= length bytes <= 4 * length s)%nat.
Proof.
  revert position bytes; induction s as [|c s IH]; intros position bytes H.
  - injection H as <-. cbn. lia.
  - cbn [encode_utf8_from] in H.
    destruct (utf8_of_char c) as [bs|] eqn:Hc; [|discriminate].
    destruct (encode_utf8_from (S position) s) as [rest|e] eqn:Hs; [|discriminate].
    cbn [bind] in H. injection H as <-.
    pose proof (utf8_of_char_length c bs Hc).
    pose proof (IH _ _ Hs).
    rewrite length_app. cbn [length]. lia.
Qed.

Lemma encode_utf8_from_ascii position s :
  forallb (fun c => (c <? 128)%N) s = true ->
  encode_utf8_from position s = Ok s.
Proof.
  revert position; induction s as [|c s IH]; intros position H; [reflexivity|].
  cbn [forallb] in H. apply andb_true_iff in H as [Hc Hs].
  cbn [encode_utf8_from]. unfold utf8_of_char. rewrite Hc, (IH _ Hs).
  reflexivity.
Qed.

Lemma approx_size_encoded (s : str) (bytes : list N) :
  encode_utf8 s = Ok bytes ->
  approx_size_warn_and_check s =
  ((if (2000 <? len bytes)%Z then [Warning_large_payload (len bytes)] else []),
   (if (2950 <? len bytes)%Z then Err (ValueError (Msg_too_large (len bytes)))
    else Ok tt)).
Proof.
  intros Hb. unfold approx_size_warn_and_check. rewrite Hb.
  unfold WARN_QR_BYTES, MAX_QR_BYTES.
  destruct (2950 <? len bytes)%Z; reflexivity.
Qed.

(** X16. For a payload of ASCII characters the measured size is the number
    of characters: the warning is printed above 2000 characters and the
    payload is refused above 2950. *)
Theorem approx_size_ascii (s : str) :
  forallb (fun c => (c <? 128)%N) s = true ->
  approx_size_warn_and_check s =
  ((if (2000 <? len s)%Z then [Warning_large_payload (len s)] else []),
   (if (2950 <? len s)%Z then Err (ValueError (Msg_too_large (len s)))
    else Ok tt)).
Proof.
  intros H. exact (approx_size_encoded s s (encode_utf8_from_ascii 0 s H)).
Qed.

Lemma approx_size_ascii_witness :
  approx_size_warn_and_check (repeat 97%N 2500) =
  ((if (2000 <? len (repeat 97%N 2500))%Z
    then [Warning_large_payload (len (repeat 97%N 2500))] else []),
   (if (2950 <? len (repeat 97%N 2500))%Z
    then Err (ValueError (Msg_too_large (len (repeat 97%N 2500))))
    else Ok tt)).
Proof.
  apply (approx_size_ascii (repeat 97%N 2500)).
  vm_compute. reflexivity.
Defined.

(** X17. Whatever its characters, a payload of at most 500 characters is
    accepted without a warning when it can be encoded, and a payload of more
    than 2950 characters is never accepted. *)
Theorem approx_size_by_characters (s : str) :
  ((len s <= 500)%Z ->
   forallb (fun c => negb (is_surrogate c)) s = true ->
   approx_size_warn_and_check s = ([], Ok tt)) /\
  ((2950 < len s)%Z ->
   exists e, snd (approx_size_warn_and_check s) = Err e).
Proof.
  split.
  - intros Hlen Hs.
    destruct (encode_utf8_from_total 0 s Hs) as [bytes Hb].
    pose proof (encode_utf8_from_length 0 s bytes Hb) as Hbound.
    unfold approx_size_warn_and_check, encode_utf8. rewrite Hb.
    unfold WARN_QR_BYTES, MAX_QR_BYTES.
    destruct (Z.ltb_spec 2000 (len bytes)); [unfold len in *; lia|].
    destruct (Z.ltb_spec 2950 (len bytes)); [unfold len in *; lia|].
    reflexivity.
  - intros Hlen. unfold approx_size_warn_and_check, encode_utf8.
    destruct (encode_utf8_from 0 s) as [bytes | e] eqn:Hb; [|now exists e].
    pose proof (encode_utf8_from_length 0 s bytes Hb) as Hbound.
    unfold MAX_QR_BYTES.
    destruct (Z.ltb_spec 2950 (len bytes)); [eexists; reflexivity|].
    unfold len in *. lia.
Qed.

Lemma approx_size_by_characters_witness :
  approx_size_warn_and_check (repeat 8364%N 500) = ([], Ok tt) /\
  exists e, snd (approx_size_warn_and_check (repeat 97%N 2951)) = Err e.
Proof.
  split.
  - apply (proj1 (approx_size_by_characters (repeat 8364%N 500)));
      vm_compute; [discriminate | reflexivity].
  - apply (proj2 (approx_size_by_characters (repeat 97%N 2951))).
    vm_compute. reflexivity.
Defined.

(** ** Interactive prompting *)

Section PromptProperties.

Import Prompt.

Variable console : Type.
Variable io_exn : Type.
Variable is_Exception : io_exn -> bool.
Variable input : str -> console -> io_result io_exn str * console.
Variable getpass : str -> console -> io_result io_exn str * console.

Lemma io_bind_inv {A B : Type} (m : io console io_exn A)
      (k : A -> io console io_exn B) c b c'' :
  io_bind m k c = (IoOk b, c'') ->
  exists a c', m c = (IoOk a, c') /\ k a c' = (IoOk b, c'').
Proof.
  unfold io_bind. destruct (m c) as [[a | e] c']; [|discriminate].
  intros H. now exists a, c'.
Qed.

Lemma input_strip_asked prompt_text c v c' :
  input_strip input prompt_text c = (IoOk v, c') -> stripped v.
Proof.
  unfold input_strip. intros H.
  apply io_bind_inv in H as (line & c1 & _ & H).
  injection H as <- _. apply strip_stripped.
Qed.

Lemma ask_asked prompt_text current hide c v c' :
  ask is_Exception input getpass prompt_text current hide c = (IoOk v, c') ->
  asked current v.
Proof.
  unfold ask, asked. destruct current as [|x r]; cbn [nonempty].
  - intros H. split; [congruence | intros _].
    destruct hide.
    + destruct (getpass prompt_text c) as [[line | e] c1].
      * injection H as <- _. apply strip_stripped.
      * destruct (is_Exception e); [|discriminate].
        now apply input_strip_asked in H.
    + now apply input_strip_asked in H.
  - intros H. injection H as <- _. split; [reflexivity | discriminate].
Qed.

Lemma input_if_missing_asked prompt_text current c v c' :
  input_if_missing input prompt_text current c = (IoOk v, c') ->
  asked current v.
Proof.
  unfold input_if_missing, asked. destruct current as [|x r]; cbn [nonempty negb].
  - intros H. split; [congruence | intros _]. now apply input_strip_asked in H.
  - intros H. injection H as <- _. split; [reflexivity | discriminate].
Qed.

Lemma stripped_nil : stripped [].
Proof. split; reflexivity. Qed.

(** X18. Prompting never replaces an argument that was supplied, and every
    argument that was missing is, afterwards, an answer stripped of its
    surrounding white space (or still empty); the line ending is not
    touched.  This holds whatever the console does. *)
Theorem prompt_if_missing_keeps_supplied args c args' c' :
  prompt_if_missing is_Exception input getpass args c = (IoOk args', c') ->
  Forall2 asked (fields args) (fields args') /\
  Args.line_ending args' = Args.line_ending args.
Proof.
  unfold prompt_if_missing. intros H.
  apply io_bind_inv in H as (given & c1 & Hgiven & H).
  apply io_bind_inv in H as (surname & c2 & Hsurname & H).
  apply io_bind_inv in H as (preferred & c3 & Hpreferred & H).
  apply io_bind_inv in H as (name & c4 & Hname & H).
  apply io_bind_inv in H as (email & c5 & Hemail & H).
  apply io_bind_inv in H as (phone & c6 & Hphone & H).
  apply io_bind_inv in H as (note & c7 & Hnote & H).
  apply io_bind_inv in H as (avatar & c8 & Havatar & H).
  apply io_bind_inv in H as (key & c9 & Hkey & H).
  apply io_bind_inv in H as (fp & c10 & Hfp & H).
  apply io_bind_inv in H as (country & c11 & Hcountry & H).
  apply io_bind_inv in H as (city & c12 & Hcity & H).
  apply io_bind_inv in H as (github & c13 & Hgithub & H).
  injection H as <- _. unfold fields. cbn.
  apply ask_asked in Hgiven, Hsurname, Hpreferred, Hemail, Hphone, Hnote.
  apply input_if_missing_asked in Havatar, Hkey, Hfp, Hcountry, Hcity, Hgithub.
  assert (Hname' : asked (Args.name args) name).
  { destruct (negb (nonempty given) && negb (nonempty surname)).
    - now apply ask_asked in Hname.
    - injection Hname as <- _. rewrite nonempty_or_self.
      split; [reflexivity | intros ->; apply stripped_nil]. }
  split; [|reflexivity].
  repeat (constructor; [assumption|]). constructor.
Qed.

(** X19. When every argument but the full name is supplied, prompting reads
    nothing: it returns the arguments as they are and leaves the console as
    it was. *)
Theorem prompt_if_missing_silent args c :
  forallb nonempty (tl (fields args)) = true ->
  prompt_if_missing is_Exception input getpass args c = (IoOk args, c).
Proof.
  destruct args as [name given surname preferred email phone github city
                      country note avatar key fp le].
  unfold fields. cbn [tl forallb Args.name Args.given Args.surname
                        Args.preferred_name Args.email Args.phone Args.github
                        Args.city Args.country Args.note Args.avatar
                        Args.pgp_key_uri Args.pgp_fingerprint].
  intros H.
  repeat match type of H with
         | _ && _ = true => apply andb_true_iff in H as [? H]
         end.
  unfold prompt_if_missing, ask, input_if_missing, io_bind, ret.
  cbn [Args.name Args.given Args.surname Args.preferred_name Args.email
         Args.phone Args.github Args.city Args.country Args.note Args.avatar
         Args.pgp_key_uri Args.pgp_fingerprint Args.line_ending].
  repeat match goal with
         | Hx : nonempty ?x = true |- _ =>
             progress (rewrite ?Hx; cbn [negb andb])
         end.
  now rewrite nonempty_or_self.
Qed.

End PromptProperties.

Lemma prompt_if_missing_keeps_supplied_witness :
  exists args' c',
    Prompt.prompt_if_missing (fun _ : unit => true) Prompt.script_read
      Prompt.script_read alice_args
      [lit " Alice "; lit "Example"; []; lit " +1 555 "; []; []; []; []; [];
       lit "Berlin "]
    = (Prompt.IoOk args', c') /\
    Forall2 asked (Prompt.fields alice_args) (Prompt.fields args') /\
    Args.line_ending args' = Args.line_ending alice_args.
Proof.
  eexists _, _.
  match goal with
  | |- ?run = _ /\ _ =>
      assert (H : run = (Prompt.IoOk _, _)) by (vm_compute; reflexivity)
  end.
  split; [exact H|].
  exact (prompt_if_missing_keeps_supplied _ _ _ _ _ _ _ _ _ H).
Defined.

Lemma prompt_if_missing_silent_witness :
  Prompt.prompt_if_missing (fun _ : unit => true) Prompt.script_read
    Prompt.script_read
    {| Args.name := []; Args.given := lit "Ada"; Args.surname := lit "Lovelace";
       Args.preferred_name := lit "Ada"; Args.email := lit "ada@example.com";
       Args.phone := lit "1"; Args.github := lit "ada"; Args.city := lit "London";
       Args.country := lit "UK"; Args.note := lit "n";
       Args.avatar := lit "https://x.com/a.jpg";
       Args.pgp_key_uri := lit "https://x.com/k.asc";
       Args.pgp_fingerprint := lit "ABCDEF01"; Args.line_ending := Args.lf |}
    []
  = (Prompt.IoOk
       {| Args.name := []; Args.given := lit "Ada"; Args.surname := lit "Lovelace";
          Args.preferred_name := lit "Ada"; Args.email := lit "ada@example.com";
          Args.phone := lit "1"; Args.github := lit "ada"; Args.city := lit "London";
          Args.country := lit "UK"; Args.note := lit "n";
          Args.avatar := lit "https://x.com/a.jpg";
          Args.pgp_key_uri := lit "https://x.com/k.asc";
          Args.pgp_fingerprint := lit "ABCDEF01"; Args.line_ending := Args.lf |},
     []).
Proof.
  apply (prompt_if_missing_silent _ _ (fun _ : unit => true) Prompt.script_read
           Prompt.script_read).
  reflexivity.
Defined.

(** With nothing supplied and a given name answered, the full name is not
    asked for: twelve lines are read. *)
Example prompt_if_missing_script :
  Prompt.prompt_if_missing (fun _ : unit => true) Prompt.script_read
    Prompt.script_read
    {| Args.name := []; Args.given := []; Args.surname := [];
       Args.preferred_name := []; Args.email := []; Args.phone := [];
       Args.github := []; Args.city := []; Args.country := [];
       Args.note := []; Args.avatar := []; Args.pgp_key_uri := [];
       Args.pgp_fingerprint := []; Args.line_ending := Args.crlf |}
    [lit " Ada "; lit "Lovelace"; []; lit "a@b.c"; []; []; []; []; []; [];
     lit "London"; lit "ada"; lit "left over"]
  = (Prompt.IoOk
       {| Args.name := []; Args.given := lit "Ada"; Args.surname := lit "Lovelace";
          Args.preferred_name := []; Args.email := lit "a@b.c"; Args.phone := [];
          Args.github := lit "ada"; Args.city := lit "London";
          Args.country := []; Args.note := []; Args.avatar := [];
          Args.pgp_key_uri := []; Args.pgp_fingerprint := [];
          Args.line_ending := Args.crlf |},
     [lit "left over"]).
Proof. vm_compute. reflexivity. Qed.

(** ** The earlier script against the later one *)

Lemma legacy_is_http_url s : Legacy.is_http_url s = is_http_url s.
Proof. destruct s; reflexivity. Qed.

Lemma legacy_fold_vcard_line line width :
  Legacy.fold_vcard_line line width = fold_vcard_line line width [CR; LF].
Proof. reflexivity. Qed.

Lemma falsy_escape_empty o : truthy o = false -> escape_vcard_value o = [].
Proof. destruct o as [[|c r]|]; [reflexivity | discriminate | reflexivity]. Qed.

(** X20. On the fields the two scripts share, they build the same payload:
    with no profile handle, city or time zone, the earlier builder returns
    what the later one returns with CRLF when the full name is passed as the
    given name too and the surname, preferred name, country, key URI and
    fingerprint are left out; both refuse the same avatar URIs. *)
Theorem legacy_build_vcard_agrees
  (full_name : str) (email phone github city timezone note avatar_uri : option str) :
  truthy github = false -> truthy city = false -> truthy timezone = false ->
  Legacy.build_vcard full_name email phone github city timezone note avatar_uri
  = build_vcard full_name full_name [] [] email phone github city None note
      avatar_uri None None [CR; LF].
Proof.
  intros Hg Hc Ht.
  rewrite build_vcard_unfold.
  unfold Legacy.build_vcard, record_lines, identity_block, phone_block,
    email_block, link_block, address_block, note_block, avatar_block,
    key_uri_block, key_fingerprint_block, nickname_block, uri_accepted.
  cbv zeta. rewrite Hg, (falsy_escape_empty city Hc), (falsy_escape_empty timezone Ht).
  rewrite legacy_is_http_url.
  change (truthy None) with false.
  change (escape_vcard_value None) with (@nil char).
  change (escape_vcard_value (Some [])) with (@nil char).
  cbn [nonempty orb negb].
  rewrite !append_if_eq.
  destruct (truthy avatar_uri), (is_http_url (val avatar_uri));
    cbn [negb orb bind optional_field]; try reflexivity;
    rewrite <- ?app_assoc; cbn [app]; rewrite ?app_nil_r; reflexivity.
Qed.

Lemma legacy_build_vcard_agrees_witness :
  Legacy.build_vcard (lit "Alice Example") (Some (lit "alice@example.com"))
    (Some (lit "+1-555-0100")) (Some []) None (Some [])
    (Some (lit "Open for hire")) (Some (lit "https://example.com/alice.jpg"))
  = build_vcard (lit "Alice Example") (lit "Alice Example") [] []
      (Some (lit "alice@example.com")) (Some (lit "+1-555-0100")) (Some [])
      None None (Some (lit "Open for hire"))
      (Some (lit "https://example.com/alice.jpg")) None None [CR; LF].
Proof.
  apply (legacy_build_vcard_agrees (lit "Alice Example")); reflexivity.
Defined.

(** With a city the two builders differ: the earlier address line has one
    semicolon more. *)
Example legacy_build_vcard_city :
  Legacy.build_vcard (lit "A") None None None (Some (lit "Rome")) None None None
  = Ok (join [CR; LF]
          [ lit "BEGIN:VCARD"; lit "VERSION:3.0"; lit "FN:A"; lit "N:;A;;;";
            lit "ADR:;;;Rome;;;"; lit "END:VCARD" ] ++ [CR; LF]) /\
  build_vcard (lit "A") (lit "A") [] [] None None None (Some (lit "Rome")) None
    None None None None [CR; LF]
  = Ok (join [CR; LF]
          [ lit "BEGIN:VCARD"; lit "VERSION:3.0"; lit "FN:A"; lit "N:;A;;;";
            lit "ADR:;;;Rome;;"; lit "END:VCARD" ] ++ [CR; LF]).
Proof. split; vm_compute; reflexivity. Qed.

(** ** What the escaper loses *)

Lemma escape_pass_no_crlf s :
  contains [CR; LF] s = false -> escape_pass s = flat_map escape_char s.
Proof.
  induction s as [| a | a b l IHl IHbl] using pair_induction; intros H.
  - reflexivity.
  - cbn. now rewrite app_nil_r.
  - rewrite escape_pass_cons2.
    apply contains_cons_false in H as [Hs Hbl].
    cbn [startswith] in Hs. rewrite andb_true_r in Hs.
    rewrite (N.eqb_sym CR a), (N.eqb_sym LF b) in Hs.
    rewrite Hs, (IHbl Hbl). reflexivity.
Qed.

Lemma escape_char_nonempty c : escape_char c <> [].
Proof. pose proof (escape_char_length c). destruct (escape_char c); cbn in *; [lia | discriminate]. Qed.

Lemma escape_char_cases c :
  (escape_char c = [c] /\ c <> BACKSLASH) \/
  (exists k, escape_char c = [BACKSLASH; k] /\
             ((c = BACKSLASH /\ k = BACKSLASH) \/ (c = SEMICOLON /\ k = SEMICOLON)
              \/ (c = COMMA /\ k = COMMA) \/ (c = LF /\ k = LOWER_N))).
Proof.
  unfold escape_char.
  destruct (N.eqb_spec c BACKSLASH) as [-> | H1];
    [right; exists BACKSLASH; split; [reflexivity | tauto]|].
  destruct (N.eqb_spec c SEMICOLON) as [-> | H2];
    [right; exists SEMICOLON; split; [reflexivity | tauto]|].
  destruct (N.eqb_spec c COMMA) as [-> | H3];
    [right; exists COMMA; split; [reflexivity | tauto]|].
  destruct (N.eqb_spec c LF) as [-> | H4];
    [right; exists LOWER_N; split; [reflexivity | tauto]|].
  left. now split.
Qed.

(** The escape sequences form a prefix code. *)
Lemma escape_char_prefix_free a b X Y :
  escape_char a ++ X = escape_char b ++ Y -> a = b /\ X = Y.
Proof.
  destruct (escape_char_cases a) as [[-> Ha] | (ka & -> & Hka)];
    destruct (escape_char_cases b) as [[-> Hb] | (kb & -> & Hkb)];
    cbn [app]; intros H.
  - injection H as -> ->. now split.
  - injection H as -> _. congruence.
  - injection H as <- _. congruence.
  - injection H as <- ->. split; [|reflexivity].
    destruct Hka as [[-> Hk] | [[-> Hk] | [[-> Hk] | [-> Hk]]]];
      destruct Hkb as [[-> Hk'] | [[-> Hk'] | [[-> Hk'] | [-> Hk']]]];
      try reflexivity; rewrite Hk in Hk'; discriminate Hk'.
Qed.

Lemma flat_map_escape_injective s1 s2 :
  flat_map escape_char s1 = flat_map escape_char s2 -> s1 = s2.
Proof.
  revert s2; induction s1 as [|a s1 IH]; intros [|b s2] H.
  - reflexivity.
  - cbn [flat_map] in H. symmetry in H. apply app_eq_nil in H as [H _].
    now apply escape_char_nonempty in H.
  - cbn [flat_map] in H. apply app_eq_nil in H as [H _].
    now apply escape_char_nonempty in H.
  - cbn [flat_map] in H. apply escape_char_prefix_free in H as [-> H].
    now rewrite (IH s2 H).
Qed.

(** X21. The escaper loses nothing but the difference between CRLF and LF:
    two strings that hold no CRLF and have the same escaped form are the
    same string. *)
Theorem escape_vcard_value_injective (s1 s2 : str) :
  contains [CR; LF] s1 = false -> contains [CR; LF] s2 = false ->
  escape_vcard_value (Some s1) = escape_vcard_value (Some s2) -> s1 = s2.
Proof.
  intros H1 H2. rewrite !escape_vcard_value_pass.
  rewrite (escape_pass_no_crlf s1 H1), (escape_pass_no_crlf s2 H2).
  apply flat_map_escape_injective.
Qed.

Lemma escape_vcard_value_injective_witness :
  lit "a;b\c" ++ [LF] = lit "a;b\c" ++ [LF].
Proof.
  apply (escape_vcard_value_injective (lit "a;b\c" ++ [LF]) (lit "a;b\c" ++ [LF]));
    reflexivity.
Defined.

Example escape_crlf_lf_collide :
  escape_vcard_value (Some [CR; LF]) = escape_vcard_value (Some [LF]).
Proof. reflexivity. Qed.
